(** * vault-manager, KV module: a shallow embedding of
    [vaultmanager/modules/VaultManagerKV.py] and the properties of its
    copy, delete, count and duplicate-search operations.

    Python objects are modelled as follows.
    - [str] is [string]; [s.split('/')] and the joining of segments are
      written out on [string].
    - a [dict] is an association list in insertion order, updated in
      place when the key is already there (CPython's iteration order);
    - the parsed arguments ([self.kwargs], a namedtuple) are a record;
    - the calls made on [VaultClient] objects are recorded, in order, in a
      trace next to the logger's records; exceptions are an outcome of the
      monad the methods run in. *)

From Stdlib Require Import List String Ascii Bool ZArith Lia.
Import ListNotations.

Local Open Scope string_scope.
Local Open Scope list_scope.

Notation "a +++ b" := (String.append a b) (at level 60, right associativity).

(** ** Python values that reach the argument checks *)

Inductive pyval : Type :=
| PNone
| PBool (b : bool)
| PStr (s : string)
| PList (l : list string).

(** [==] on the values above. *)
Definition py_eqb (a b : pyval) : bool :=
  match a, b with
  | PNone, PNone => true
  | PBool x, PBool y => Bool.eqb x y
  | PStr x, PStr y => String.eqb x y
  | PList x, PList y => if list_eq_dec string_dec x y then true else false
  | _, _ => false
  end.

(** [v in l] *)
Definition py_in (v : pyval) (l : list pyval) : bool := existsb (py_eqb v) l.

(** ** Strings: [split], joining, [replace] *)

(** [s.split(sep)] for a one-character separator: never empty, one more
    segment than there are separators. *)
Fixpoint split (sep : ascii) (s : string) : list string :=
  match s with
  | EmptyString => [EmptyString]
  | String c s' =>
      if Ascii.eqb c sep then EmptyString :: split sep s'
      else match split sep s' with
           | [] => [String c EmptyString]
           | w :: ws => String c w :: ws
           end
  end.

(** [s.replace(a, b)] for one-character [a] and [b]. *)
Fixpoint replace (a b : ascii) (s : string) : string :=
  match s with
  | EmptyString => EmptyString
  | String c s' => String (if Ascii.eqb c a then b else c) (replace a b s')
  end.

(** Modelled from the spec: [utils.list_to_string] lives in [lib/utils.py],
    which is not among the sources; a path is "a [/]-delimited sequence
    of segments", so the segments are joined with the separator between
    them. *)
Fixpoint list_to_string (l : list string) (separator : string) : string :=
  match l with
  | [] => EmptyString
  | [x] => x
  | x :: xs => x +++ separator +++ list_to_string xs separator
  end.

Definition slash : ascii := "/"%char.

(** ** Dictionaries *)

Section Dict.
Context {K V : Type} (eqb : K -> K -> bool).

(** [d[k] = v] *)
Fixpoint dict_set (k : K) (v : V) (d : list (K * V)) : list (K * V) :=
  match d with
  | [] => [(k, v)]
  | (k', v') :: d' =>
      if eqb k k' then (k, v) :: d' else (k', v') :: dict_set k v d'
  end.

(** [d.get(k)] *)
Fixpoint dict_get (k : K) (d : list (K * V)) : option V :=
  match d with
  | [] => None
  | (k', v') :: d' => if eqb k k' then Some v' else dict_get k d'
  end.

(** [k in d] *)
Definition dict_mem (k : K) (d : list (K * V)) : bool :=
  match dict_get k d with Some _ => true | None => false end.
End Dict.

Definition sdict (V : Type) : Type := list (string * V).
Definition sset {V} := @dict_set string V String.eqb.
Definition sget {V} := @dict_get string V String.eqb.

(** A secret's document: key -> value. *)
Definition doc : Type := sdict string.

(** ** The parsed arguments *)

Record KwArgs : Type := mkKwArgs {
  vault_addr : pyval;
  vault_token : pyval;
  vault_target_addr : pyval;
  vault_target_token : pyval;
  dry_run : bool;
  skip_tls : bool;
  copy_path : option (string * string);      (* nargs=2 *)
  copy_secret : option (string * string);    (* nargs=2 *)
  delete : option (list string);             (* nargs='+' *)
  count : option (list string);
  find_duplicates : option (list string);
  secrets_tree : option (list string);
  exclude : option (list string)
}.

Definition pair_val (o : option (string * string)) : pyval :=
  match o with None => PNone | Some (a, b) => PList [a; b] end.
Definition list_val (o : option (list string)) : pyval :=
  match o with None => PNone | Some l => PList l end.

(** [dict(self.kwargs._asdict())] *)
Definition asdict (kw : KwArgs) : sdict pyval :=
  [ ("vault_addr", vault_addr kw); ("vault_token", vault_token kw);
    ("vault_target_addr", vault_target_addr kw);
    ("vault_target_token", vault_target_token kw);
    ("dry_run", PBool (dry_run kw)); ("skip_tls", PBool (skip_tls kw));
    ("copy_path", pair_val (copy_path kw));
    ("copy_secret", pair_val (copy_secret kw));
    ("delete", list_val (delete kw)); ("count", list_val (count kw));
    ("find_duplicates", list_val (find_duplicates kw));
    ("secrets_tree", list_val (secrets_tree kw));
    ("exclude", list_val (exclude kw)) ].

(** Truth value of an optional argument list: [None] and [[]] are false. *)
Definition truthy_pair (o : option (string * string)) : bool :=
  match o with Some _ => true | None => false end.
Definition truthy_list (o : option (list string)) : bool :=
  match o with Some (_ :: _) => true | _ => false end.

(** One entry of the list given to [utils.keys_exists_in_dict]. *)
Record required : Type := mkRequired { key : string; exc : list pyval }.

(** Modelled from the spec: [utils.keys_exists_in_dict] lives in
    [lib/utils.py], which is not among the sources.  From its call sites
    and the spec's "required connection argument absent": it returns the
    entries whose key is not in the dictionary or is bound to one of the
    values listed under ["exc"]. *)
Definition keys_exists_in_dict (dictionary : sdict pyval)
    (keys : list required) : list required :=
  filter (fun k => match sget (key k) dictionary with
                   | None => true
                   | Some v => py_in v (exc k)
                   end) keys.

Definition source_keys : list required :=
  [ mkRequired "vault_addr" [PNone; PStr EmptyString];
    mkRequired "vault_token" [PNone; PBool false] ].

Definition copy_keys : list required :=
  source_keys ++
  [ mkRequired "vault_target_addr" [PNone; PStr EmptyString];
    mkRequired "vault_target_token" [PNone; PBool false] ].

(** [[k['key'].replace("_", "-") for k in missing_args]] *)
Definition dashed (missing_args : list required) : list string :=
  map (fun k => replace "_"%char "-"%char (key k)) missing_args.

(** ** Logger records, exceptions, store calls *)

Inductive level : Type := DEBUG | INFO | ERROR.

(** The pieces a logged text is built from; [LList] is [str] of a list of
    strings, the three [LJson] forms are [json.dumps(_, indent=4)] of the
    three reports. *)
Inductive logarg : Type :=
| LStr (s : string)
| LInt (z : Z)
| LList (l : list string)
| LJsonCount (d : sdict (Z * Z))
| LJsonGroups (d : list (Z * list string))
| LJsonTree (d : sdict (list string)).

Definition message : Type := list logarg.

(** [str(v)], as ["%s" % v] renders it. *)
Definition py_arg (v : pyval) : logarg :=
  match v with
  | PNone => LStr "None"
  | PBool true => LStr "True"
  | PBool false => LStr "False"
  | PStr s => LStr s
  | PList l => LList l
  end.

Inductive output : Type :=
| Log (lvl : level) (m : message)
| PrintHelp.

Inductive exn : Type :=
| ValueError (m : message)
| AttributeError (m : string)
| KeyError (k : string)
| TypeError (m : string).

(** A [VaultClient] object: what it was built with and the token it was
    authenticated with. *)
Record VaultClient : Type := mkClient {
  c_addr : pyval;
  c_dry : bool;
  c_skip_tls : bool;
  c_token : pyval
}.

Inductive call : Type :=
| CInit (addr : pyval) (dry skip : bool)
| CAuthenticate (c : VaultClient)
| CList (c : VaultClient) (path : string) (excluded : option (list string))
| CReadSecret (c : VaultClient) (path : string)
| CRead (c : VaultClient) (path : string)
| CWrite (c : VaultClient) (path : string) (d : doc) (hide_all : bool)
| CDelete (c : VaultClient) (path : string).

Definition is_write (c : call) : bool :=
  match c with CWrite _ _ _ _ => true | _ => false end.
Definition is_delete (c : call) : bool :=
  match c with CDelete _ _ => true | _ => false end.
Definition is_error (o : output) : bool :=
  match o with Log ERROR _ => true | _ => false end.

(** Modelled from the spec: [VaultClient] lives in [lib/VaultClient.py],
    which is not among the sources.  The store it talks to is a state
    [world]; listing and reading answer from it, writing and deleting
    change it.  Transport and permission failures are outside the model:
    every call answers. *)
Record Backend : Type := mkBackend {
  world : Type;
  vc_secrets_tree_list :
    world -> VaultClient -> string -> option (list string) -> list string;
  vc_read_secret : world -> VaultClient -> string -> doc;
  vc_read : world -> VaultClient -> string -> doc;
  vc_write : world -> VaultClient -> string -> doc -> bool -> world;
  vc_delete : world -> VaultClient -> string -> world
}.

(** How a method ends: it returns or an exception leaves it. *)
Inductive outcome (A : Type) : Type :=
| Return (a : A)
| Raise (e : exn).
Arguments Return {A} a.
Arguments Raise {A} e.

(** ** The methods of [VaultManagerKV] *)

Section KV.
Variable B : Backend.
(** [os.environ] *)
Variable environ : sdict string.

Record state : Type := mkState {
  st_world : world B;
  st_calls : list call;
  st_out : list output
}.

Definition M (A : Type) : Type := state -> outcome A * state.

Definition ret {A} (a : A) : M A := fun s => (Return a, s).
Definition raise {A} (e : exn) : M A := fun s => (Raise e, s).
Definition bind {A C} (m : M A) (f : A -> M C) : M C :=
  fun s => match m s with
           | (Return a, s') => f a s'
           | (Raise e, s') => (Raise e, s')
           end.

Notation "x <- m ;; k" := (bind m (fun x => k))
  (at level 61, m at next level, right associativity).
Notation "m ;; k" := (bind m (fun _ => k))
  (at level 61, right associativity).

Definition emit (o : output) : M unit :=
  fun s => (Return tt, mkState (st_world s) (st_calls s) (st_out s ++ [o])).
Definition logger (lvl : level) (m : message) : M unit := emit (Log lvl m).
Definition record (c : call) : M unit :=
  fun s => (Return tt, mkState (st_world s) (st_calls s ++ [c]) (st_out s)).

(** The calls on a [VaultClient]. *)
Definition secrets_tree_list (c : VaultClient) (path : string)
    (excluded : option (list string)) : M (list string) :=
  fun s => (Return (vc_secrets_tree_list B (st_world s) c path excluded),
            mkState (st_world s) (st_calls s ++ [CList c path excluded])
                    (st_out s)).
Definition read_secret (c : VaultClient) (path : string) : M doc :=
  fun s => (Return (vc_read_secret B (st_world s) c path),
            mkState (st_world s) (st_calls s ++ [CReadSecret c path])
                    (st_out s)).
Definition read (c : VaultClient) (path : string) : M doc :=
  fun s => (Return (vc_read B (st_world s) c path),
            mkState (st_world s) (st_calls s ++ [CRead c path]) (st_out s)).
Definition write (c : VaultClient) (path : string) (d : doc)
    (hide_all : bool) : M unit :=
  fun s => (Return tt,
            mkState (vc_write B (st_world s) c path d hide_all)
                    (st_calls s ++ [CWrite c path d hide_all]) (st_out s)).
Definition vault_delete (c : VaultClient) (path : string) : M unit :=
  fun s => (Return tt,
            mkState (vc_delete B (st_world s) c path)
                    (st_calls s ++ [CDelete c path]) (st_out s)).

(** [os.environ[k]] *)
Definition getenv (k : string) : M string :=
  match sget k environ with
  | Some v => ret v
  | None => raise (KeyError k)
  end.

(** [for x in l: body(x)] *)
Fixpoint for_each {A} (l : list A) (body : A -> M unit) : M unit :=
  match l with
  | [] => ret tt
  | x :: xs => body x ;; for_each xs body
  end.

(** A [for] loop that updates local variables [acc]. *)
Fixpoint fold_for {A S} (l : list A) (acc : S) (body : S -> A -> M S)
    : M S :=
  match l with
  | [] => ret acc
  | x :: xs => acc' <- body acc x ;; fold_for xs acc' body
  end.

(** [try: m  except AttributeError as e: h(str(e))] *)
Definition try_except_AttributeError (m : M unit) (h : string -> M unit)
    : M unit :=
  fun s => match m s with
           | (Raise (AttributeError e), s') => h e s'
           | r => r
           end.

Definition connect_to_vault (kw : KwArgs) (vault_addr vault_token : pyval)
    : M VaultClient :=
  logger DEBUG [LStr "Connecting to Vault instance '"; py_arg vault_addr;
                LStr "'"] ;;
  record (CInit vault_addr (dry_run kw) (skip_tls kw)) ;;
  let vault_client :=
    mkClient vault_addr (dry_run kw) (skip_tls kw) vault_token in
  record (CAuthenticate vault_client) ;;
  ret vault_client.

(** [kv_full[kv] = vault_client.read_secret(kv)] *)
Definition read_into (vault_client : VaultClient) (kv_full : sdict doc)
    (kv : string) : M (sdict doc) :=
  d <- read_secret vault_client kv ;;
  ret (sset kv d kv_full).

Definition read_from_vault (path_to_read : string)
    (vault_client : VaultClient) : M (sdict doc) :=
  logger DEBUG [LStr "Reading kv tree"] ;;
  kv_list <- secrets_tree_list vault_client path_to_read None ;;
  logger DEBUG [LStr "Secrets found: "; LList kv_list] ;;
  fold_for kv_list [] (read_into vault_client).

(** [target_path.split('/') + secret.split('/')[len(exported_path.split('/')):]]
    joined with ["/"]. *)
Definition secret_target_path (exported_path target_path secret : string)
    : string :=
  list_to_string
    (split slash target_path ++
     skipn (List.length (split slash exported_path)) (split slash secret))
    "/".

(** The body of [push_to_vault]'s loop, for the item [secret],
    [exported_kv[secret]]. *)
Definition push_one (exported_path target_path : string)
    (vault_client : VaultClient) (item : string * doc) : M unit :=
  let p := secret_target_path exported_path target_path (fst item) in
  logger INFO [LStr ("Exporting secret: " +++ fst item +++ " to " +++ p)] ;;
  write vault_client p (snd item) true.

(** [for secret in exported_kv: ... exported_kv[secret]] visits the
    dictionary's items in insertion order. *)
Definition push_to_vault (exported_path : string) (exported_kv : sdict doc)
    (target_path : string) (vault_client : VaultClient) : M unit :=
  logger DEBUG [LStr "Pushing exported kv to Vault"] ;;
  for_each exported_kv (push_one exported_path target_path vault_client).

Definition delete_one (vault_client : VaultClient) (secret : string)
    : M unit :=
  logger INFO [LStr ("Deleting '" +++ secret +++ "'")] ;;
  vault_delete vault_client secret.

(** [kv_to_delete] is the dictionary read from the store; the loop visits
    its keys. *)
Definition delete_from_vault (kv_to_delete : sdict doc)
    (vault_client : VaultClient) : M unit :=
  a <- getenv "VAULT_ADDR" ;;
  logger DEBUG [LStr ("Deleting secrets from " +++ a)] ;;
  for_each (map fst kv_to_delete) (delete_one vault_client).

Definition missing_error (missing_args : list required) : exn :=
  ValueError [LStr "Following arguments are missing ";
              LList (dashed missing_args)].

Definition not_a_secret (p : string) : string :=
  "'" +++ p +++ "' is not a valid secret. If you're trying "
      +++ "to copy a path, use --copy-path instead".

Definition kv_copy_secret (kw : KwArgs) : M unit :=
  logger DEBUG [LStr "KV copy secret starting"] ;;
  let missing_args := keys_exists_in_dict (asdict kw) copy_keys in
  if negb (Nat.eqb (List.length missing_args) 0) then
    raise (missing_error missing_args)
  else
  match copy_secret kw with
  | None => raise (TypeError "'NoneType' object is not subscriptable")
  | Some (src, dst) =>
    logger INFO [LStr "Copying "; LStr src; LStr " from ";
                 py_arg (vault_addr kw); LStr " to "; LStr dst; LStr " on ";
                 py_arg (vault_target_addr kw)] ;;
    vault_client <- connect_to_vault kw (vault_addr kw) (vault_token kw) ;;
    secret_to_copy <- read vault_client src ;;
    if Nat.eqb (List.length secret_to_copy) 0 then
      raise (AttributeError (not_a_secret src))
    else
    vault_target_client <-
      connect_to_vault kw (vault_addr kw) (vault_token kw) ;;
    write vault_target_client dst secret_to_copy true ;;
    logger INFO [LStr ("Secret '" +++ src +++ "' successfully copied")]
  end.

Definition no_path_to_copy : string := "No path to copy".
Definition use_copy_secret : string :=
  "--copy-path should not be used to copy individual secrets."
  +++ " Use --copy-secret instead".

(** [len(exported_kv) == 1 and list(exported_kv.keys())[0] == root] *)
Definition only_root (exported_kv : sdict doc) (root : string) : bool :=
  Nat.eqb (List.length exported_kv) 1 &&
  match exported_kv with
  | (k, _) :: _ => String.eqb k root
  | [] => false
  end.

Definition kv_copy_path (kw : KwArgs) : M unit :=
  logger DEBUG [LStr "KV copy path starting"] ;;
  let missing_args := keys_exists_in_dict (asdict kw) copy_keys in
  if negb (Nat.eqb (List.length missing_args) 0) then
    raise (missing_error missing_args)
  else
  match copy_path kw with
  | None => raise (TypeError "'NoneType' object is not subscriptable")
  | Some (src, dst) =>
    logger INFO [LStr "Copying "; LStr src; LStr " from ";
                 py_arg (vault_addr kw); LStr " to "; LStr dst; LStr " on ";
                 py_arg (vault_target_addr kw)] ;;
    vault_client <- connect_to_vault kw (vault_addr kw) (vault_token kw) ;;
    exported_kv <- read_from_vault src vault_client ;;
    if Nat.eqb (List.length exported_kv) 0 then
      raise (AttributeError no_path_to_copy)
    else if only_root exported_kv src then
      raise (AttributeError use_copy_secret)
    else
    vault_target_client <-
      connect_to_vault kw (vault_addr kw) (vault_token kw) ;;
    push_to_vault src exported_kv dst vault_target_client ;;
    logger INFO [LStr "Path successfully copied"]
  end.

Definition no_secrets_to_delete (to_delete : string) : output :=
  Log ERROR [LStr ("No secrets to delete at '" +++ to_delete +++ "'")].

(** The body of [kv_delete]'s loop. *)
Definition kv_delete_one (vault_client : VaultClient) (to_delete : string)
    : M unit :=
  a <- getenv "VAULT_ADDR" ;;
  logger INFO [LStr ("Deleting all secrets at and under " +++ to_delete
                     +++ " at " +++ a)] ;;
  exported_kv <- read_from_vault to_delete vault_client ;;
  if negb (Nat.eqb (List.length exported_kv) 0) then
    delete_from_vault exported_kv vault_client ;;
    logger DEBUG [LStr ("Secrets at '" +++ to_delete
                        +++ "' successfully deleted")]
  else
    emit (no_secrets_to_delete to_delete).

Definition kv_delete (kw : KwArgs) : M unit :=
  logger DEBUG [LStr "KV delete starting"] ;;
  let missing_args := keys_exists_in_dict (asdict kw) source_keys in
  if negb (Nat.eqb (List.length missing_args) 0) then
    raise (missing_error missing_args)
  else
  vault_client <- connect_to_vault kw (vault_addr kw) (vault_token kw) ;;
  match delete kw with
  | None => raise (TypeError "'NoneType' object is not iterable")
  | Some roots => for_each roots (kv_delete_one vault_client)
  end.

(** [self.kwargs.exclude or []] *)
Definition excluded_of (kw : KwArgs) : list string :=
  match exclude kw with
  | Some (x :: l) => x :: l
  | _ => []
  end.

Definition tab : string := String (ascii_of_nat 9) EmptyString.

(** The local variables of [kv_count]'s loop. *)
Record count_vars : Type := mkCount {
  total_secrets : Z;
  total_kv : Z;
  count_dict : sdict (Z * Z)      (* secrets_count, values_count *)
}.

(** [count_dict[path][field] = n] *)
Definition set_field (path : string) (f : Z * Z -> Z * Z)
    (d : sdict (Z * Z)) : M (sdict (Z * Z)) :=
  match sget path d with
  | Some e => ret (sset path (f e) d)
  | None => raise (KeyError path)
  end.

(** [kv_count += len(vault_client.read(secret_path))] *)
Definition add_len (vault_client : VaultClient) (kv_count : Z)
    (secret_path : string) : M Z :=
  d <- read vault_client secret_path ;;
  ret (kv_count + Z.of_nat (List.length d))%Z.

(** The body of [kv_count]'s loop. *)
Definition kv_count_body (vault_client : VaultClient)
    (excluded : list string) (v : count_vars) (path : string)
    : M count_vars :=
  logger DEBUG [LStr ("At path '" +++ path +++ "'")] ;;
  let cd0 := sset path ((-1)%Z, (-1)%Z) (count_dict v) in
  all_secrets <- secrets_tree_list vault_client path (Some excluded) ;;
  let n := Z.of_nat (List.length all_secrets) in
  logger DEBUG [LStr (tab +++ "Secrets count: "); LInt n] ;;
  cd1 <- set_field path (fun e => (n, snd e)) cd0 ;;
  let total_secrets' := (total_secrets v + n)%Z in
  kv_count <- fold_for all_secrets 0%Z (add_len vault_client) ;;
  let total_kv' := (total_kv v + kv_count)%Z in
  logger DEBUG [LStr (tab +++ "Values count: "); LInt kv_count] ;;
  cd2 <- set_field path (fun e => (fst e, kv_count)) cd1 ;;
  ret (mkCount total_secrets' total_kv' cd2).

Definition kv_count_loop (vault_client : VaultClient) (kw : KwArgs)
    (roots : list string) : M count_vars :=
  fold_for roots (mkCount 0 0 []) (kv_count_body vault_client (excluded_of kw)).

Definition kv_count (kw : KwArgs) : M unit :=
  logger DEBUG [LStr "KV count starting"] ;;
  let missing_args := keys_exists_in_dict (asdict kw) source_keys in
  if negb (Nat.eqb (List.length missing_args) 0) then
    raise (missing_error missing_args)
  else
  vault_client <- connect_to_vault kw (vault_addr kw) (vault_token kw) ;;
  match count kw with
  | None => raise (TypeError "'NoneType' object is not iterable")
  | Some roots =>
    v <- kv_count_loop vault_client kw roots ;;
    logger DEBUG [LStr "Total"] ;;
    logger DEBUG [LStr (tab +++ "Secrets count: "); LInt (total_secrets v)] ;;
    logger DEBUG [LStr (tab +++ "Values count: "); LInt (total_kv v)] ;;
    logger INFO [LJsonCount (count_dict v)]
  end.

(** [path + ":" + key] *)
Definition locator (path key : string) : string := path +++ ":" +++ key.

(** The body of the two nested loops that fill [values_count]; appending
    to the list bound to a value keeps the value's place in the
    dictionary. *)
Definition add_value (values_count : sdict (list string))
    (path key value : string) : sdict (list string) :=
  match sget value values_count with
  | None => sset value [locator path key] values_count
  | Some l => sset value (l ++ [locator path key]) values_count
  end.

Definition count_values (kv_full : sdict doc) : sdict (list string) :=
  fold_left (fun vc (pd : string * doc) =>
               fold_left (fun vc' (kv : string * string) =>
                            add_value vc' (fst pd) (fst kv) (snd kv))
                         (snd pd) vc)
            kv_full [].

(** The loop that fills [grouped_duplicates], with [dup_counter]. *)
Definition group_duplicates (values_count : sdict (list string))
    : list (Z * list string) * Z :=
  fold_left (fun (acc : list (Z * list string) * Z)
                 (e : string * list string) =>
               if Nat.ltb 1 (List.length (snd e)) then
                 (dict_set Z.eqb (snd acc) (snd e) (fst acc),
                  (snd acc + 1)%Z)
               else acc)
            values_count ([], 0%Z).

(** [kv_list += vault_client.secrets_tree_list(path, excluded)] *)
Definition extend_list (vault_client : VaultClient)
    (excluded : list string) (kv_list : list string) (path : string)
    : M (list string) :=
  l <- secrets_tree_list vault_client path (Some excluded) ;;
  ret (kv_list ++ l).

Definition kv_find_duplicates (kw : KwArgs) : M unit :=
  logger DEBUG [LStr "KV find duplicates starting"] ;;
  let missing_args := keys_exists_in_dict (asdict kw) source_keys in
  if negb (Nat.eqb (List.length missing_args) 0) then
    raise (missing_error missing_args)
  else
  vault_client <- connect_to_vault kw (vault_addr kw) (vault_token kw) ;;
  let excluded := excluded_of kw in
  match find_duplicates kw with
  | None => raise (TypeError "'NoneType' object is not iterable")
  | Some roots =>
    kv_list <- fold_for roots [] (extend_list vault_client excluded) ;;
    kv_full <- fold_for kv_list [] (read_into vault_client) ;;
    let values_count := count_values kv_full in
    let grouped_duplicates := fst (group_duplicates values_count) in
    logger INFO [LJsonGroups grouped_duplicates]
  end.

(** [kv_full[path] = vault_client.secrets_tree_list(path, excluded)] *)
Definition tree_into (vault_client : VaultClient) (excluded : list string)
    (kv_full : sdict (list string)) (path : string)
    : M (sdict (list string)) :=
  l <- secrets_tree_list vault_client path (Some excluded) ;;
  ret (sset path l kv_full).

Definition kv_secrets_tree (kw : KwArgs) : M unit :=
  logger DEBUG [LStr "KV secrets paths starting"] ;;
  let missing_args := keys_exists_in_dict (asdict kw) source_keys in
  if negb (Nat.eqb (List.length missing_args) 0) then
    raise (missing_error missing_args)
  else
  vault_client <- connect_to_vault kw (vault_addr kw) (vault_token kw) ;;
  let excluded := excluded_of kw in
  match secrets_tree kw with
  | None => raise (TypeError "'NoneType' object is not iterable")
  | Some roots =>
    kv_full <- fold_for roots [] (tree_into vault_client excluded) ;;
    logger INFO [LJsonTree kv_full]
  end.

(** The class name without its [VaultManager] prefix, in lower case, as
    [initialize_subparser] sets it. *)
Definition module_name : string := "kv".

(** [any([...])] *)
Definition any (l : list bool) : bool := existsb (fun b => b) l.

(** The module's entry point; it returns [False] or, by falling off the
    end, [None]. *)
Definition run (kw : KwArgs) : M pyval :=
  if negb (any [truthy_pair (copy_path kw); truthy_list (count kw);
                truthy_pair (copy_secret kw); truthy_list (delete kw);
                truthy_list (find_duplicates kw);
                truthy_list (secrets_tree kw)]) then
    logger ERROR [LStr "One argument should be specified"] ;;
    emit PrintHelp ;;
    ret (PBool false)
  else
  logger DEBUG [LStr ("Module " +++ module_name +++ " started")] ;;
  try_except_AttributeError
    (if truthy_pair (copy_path kw) then kv_copy_path kw
     else if truthy_pair (copy_secret kw) then kv_copy_secret kw
     else if truthy_list (delete kw) then kv_delete kw
     else if truthy_list (count kw) then kv_count kw
     else if truthy_list (find_duplicates kw) then kv_find_duplicates kw
     else if truthy_list (secrets_tree kw) then kv_secrets_tree kw
     else ret tt)
    (fun e => logger ERROR [LStr e]) ;;
  ret PNone.

End KV.

Arguments mkState {B} _ _ _.
Arguments st_world {B} _.
Arguments st_calls {B} _.
Arguments st_out {B} _.

(** The six operations and the method behind each. *)
Inductive operation : Type :=
| CopyPath | CopySecret | Delete | Count | FindDuplicates | SecretsTree.

Definition method (B : Backend) (environ : sdict string) (op : operation)
    : KwArgs -> M B unit :=
  match op with
  | CopyPath => kv_copy_path B
  | CopySecret => kv_copy_secret B
  | Delete => kv_delete B environ
  | Count => kv_count B
  | FindDuplicates => kv_find_duplicates B
  | SecretsTree => kv_secrets_tree B
  end.

(** ** An in-memory store *)

(** Modelled from the spec: a store instance holds documents at leaf
    paths; a path is its sequence of non-empty segments, so [app/] and
    [app] are the same root; [list_leaves] answers the leaves equal to
    or nested under the root, segment by segment, that no excluded
    prefix covers; [delete] of an absent path is not an error.  One
    instance per address; the token and the dry-run switch are not
    interpreted.

    The client's calls always answer in this model, so the [NotFound] of
    the store's [read] has no place in it: [mem_read] answers the empty
    document where nothing is stored, which is the answer
    [kv_copy_secret] tests for ([if not len(secret_to_copy)]).  No
    sample input below reads a path that is not in the store. *)
Definition store : Type := sdict doc.
Definition mem_world : Type := list (pyval * store).

Fixpoint is_prefix (r l : list string) : bool :=
  match r, l with
  | [], _ => true
  | x :: r', y :: l' => String.eqb x y && is_prefix r' l'
  | _ :: _, [] => false
  end.

(** The segments of a path: the non-empty pieces between the [/]. *)
Definition segments (p : string) : list string :=
  filter (fun seg => match seg with EmptyString => false | _ => true end)
         (split slash p).

Definition is_under (root p : string) : bool :=
  is_prefix (segments root) (segments p).

Definition instance (w : mem_world) (c : VaultClient) : store :=
  match dict_get py_eqb (c_addr c) w with
  | Some st => st
  | None => []
  end.

Definition list_leaves (st : store) (root : string) (excluded : list string)
    : list string :=
  filter (fun p => is_under root p &&
                   negb (existsb (fun e => is_under e p) excluded))
         (map fst st).

Definition mem_list (w : mem_world) (c : VaultClient) (root : string)
    (excluded : option (list string)) : list string :=
  list_leaves (instance w c) root
              (match excluded with Some e => e | None => [] end).

Definition mem_read (w : mem_world) (c : VaultClient) (p : string) : doc :=
  match sget p (instance w c) with
  | Some d => d
  | None => []
  end.

Definition mem_write (w : mem_world) (c : VaultClient) (p : string)
    (d : doc) (hide_all : bool) : mem_world :=
  dict_set py_eqb (c_addr c) (sset p d (instance w c)) w.

Definition store_remove (p : string) (st : store) : store :=
  filter (fun e => negb (String.eqb (fst e) p)) st.

Definition mem_delete (w : mem_world) (c : VaultClient) (p : string)
    : mem_world :=
  dict_set py_eqb (c_addr c) (store_remove p (instance w c)) w.

Definition MemStore : Backend :=
  mkBackend mem_world mem_list mem_read mem_read mem_write mem_delete.

(** A run starts with no call made and nothing logged. *)
Definition init (w : mem_world) : state MemStore :=
  mkState (B:=MemStore) w [] [].


(** ** Notions the properties are stated with *)

Section Notions.
Variable B : Backend.

(** The state reached from [s] by making the calls [cs] and the outputs
    [os], the store ending as [w]. *)
Definition ext (s : state B) (w : world B) (cs : list call)
    (os : list output) : state B :=
  mkState w (st_calls s ++ cs) (st_out s ++ os).

(** The dictionary [read_from_vault] builds from a listing. *)
Definition snapshot_from (w : world B) (c : VaultClient)
    (kv_list : list string) (acc : sdict doc) : sdict doc :=
  fold_left (fun kv_full kv => sset kv (vc_read_secret B w c kv) kv_full)
            kv_list acc.

(** The snapshot taken at [root]: every listed leaf with its document. *)
Definition snapshot (w : world B) (c : VaultClient) (root : string)
    : sdict doc :=
  snapshot_from w c (vc_secrets_tree_list B w c root None) [].

(** The client [connect_to_vault] answers for the source connection, and
    the one it would answer for the target connection. *)
Definition source_client (kw : KwArgs) : VaultClient :=
  mkClient (vault_addr kw) (dry_run kw) (skip_tls kw) (vault_token kw).
Definition target_client (kw : KwArgs) : VaultClient :=
  mkClient (vault_target_addr kw) (dry_run kw) (skip_tls kw)
           (vault_target_token kw).

(** The writes of [push_to_vault]'s loop. *)
Definition push_call (src dst : string) (c : VaultClient)
    (item : string * doc) : call :=
  CWrite c (secret_target_path src dst (fst item)) (snd item) true.

Definition push_world (src dst : string) (c : VaultClient)
    (items : sdict doc) (w : world B) : world B :=
  fold_left (fun w item =>
               vc_write B w c (secret_target_path src dst (fst item))
                        (snd item) true) items w.

(** *** Delete Subtree, in the spec's words *)

(** The leaves found at [root]: the paths of its snapshot. *)
Definition leaves_at (w : world B) (c : VaultClient) (root : string)
    : list string :=
  map fst (snapshot w c root).

(** The store after [delete] on each of [ls]. *)
Definition delete_all (w : world B) (c : VaultClient) (ls : list string)
    : world B :=
  fold_left (fun w p => vc_delete B w c p) ls w.

(** "For each root: snapshot the tree at that root; if empty, report and
    continue to the next root; otherwise delete every leaf found": the
    store this ends with, the leaves deleted and the roots reported, in
    order. *)
Fixpoint delete_subtree_world (w : world B) (c : VaultClient)
    (roots : list string) : world B :=
  match roots with
  | [] => w
  | r :: rs =>
      delete_subtree_world (delete_all w c (leaves_at w c r)) c rs
  end.

Fixpoint deleted_leaves (w : world B) (c : VaultClient)
    (roots : list string) : list string :=
  match roots with
  | [] => []
  | r :: rs =>
      leaves_at w c r ++
      deleted_leaves (delete_all w c (leaves_at w c r)) c rs
  end.

Fixpoint reported_roots (w : world B) (c : VaultClient)
    (roots : list string) : list string :=
  match roots with
  | [] => []
  | r :: rs =>
      match leaves_at w c r with [] => [r] | _ => [] end ++
      reported_roots (delete_all w c (leaves_at w c r)) c rs
  end.

(** *** Count, in the spec's words *)

Definition sumZ (l : list Z) : Z := fold_right Z.add 0%Z l.

(** The leaves listed under [root] after exclusion. *)
Definition listed (w : world B) (c : VaultClient) (excluded : list string)
    (root : string) : list string :=
  vc_secrets_tree_list B w c root (Some excluded).

(** The number of leaves listed under [root]. *)
Definition secrets_count (w : world B) (c : VaultClient)
    (excluded : list string) (root : string) : Z :=
  Z.of_nat (List.length (listed w c excluded root)).

(** The sum, over those leaves, of the number of keys of the leaf's
    document. *)
Definition values_count (w : world B) (c : VaultClient)
    (excluded : list string) (root : string) : Z :=
  sumZ (map (fun p => Z.of_nat (List.length (vc_read B w c p)))
            (listed w c excluded root)).

(** The dictionary [kv_count] fills, root after root. *)
Definition count_dict_of (w : world B) (c : VaultClient)
    (excluded roots : list string) (d : sdict (Z * Z)) : sdict (Z * Z) :=
  fold_left (fun d root => sset root (secrets_count w c excluded root,
                                      values_count w c excluded root) d)
            roots d.

(** *** The combined snapshot of the Duplicate Detector *)

(** The leaves listed under all the roots, and the documents read
    there. *)
Definition all_listed (w : world B) (c : VaultClient)
    (excluded roots : list string) : list string :=
  flat_map (listed w c excluded) roots.

Definition combined_snapshot (w : world B) (c : VaultClient)
    (excluded roots : list string) : sdict doc :=
  snapshot_from w c (all_listed w c excluded roots) [].

End Notions.

Arguments ext {B} _ _ _ _.

(** The connection arguments an operation requires. *)
Definition required_keys (op : operation) : list required :=
  match op with
  | CopyPath | CopySecret => copy_keys
  | _ => source_keys
  end.

(** The first record a method logs. *)
Definition starting (op : operation) : output :=
  Log DEBUG [LStr match op with
                  | CopyPath => "KV copy path starting"
                  | CopySecret => "KV copy secret starting"
                  | Delete => "KV delete starting"
                  | Count => "KV count starting"
                  | FindDuplicates => "KV find duplicates starting"
                  | SecretsTree => "KV secrets paths starting"
                  end].


(** ** Path remapping, in the spec's words *)

(** [leaf] with the prefix [root] stripped, segment by segment; nothing
    when [leaf] does not fall under [root]. *)
Fixpoint strip_prefix (root leaf : list string) : option (list string) :=
  match root, leaf with
  | [], _ => Some leaf
  | x :: root', y :: leaf' =>
      if String.eqb x y then strip_prefix root' leaf' else None
  | _ :: _, [] => None
  end.

(** [dest_root] followed by the segments [sfx]. *)
Definition followed_by (dest_root : string) (sfx : list string) : string :=
  list_to_string (split slash dest_root ++ sfx) "/".

(** [remap(source_root, dest_root, leaf)] of the spec: [dest_root]
    followed by the suffix of [leaf] relative to [source_root]. *)
Definition remap (source_root dest_root leaf : string) : option string :=
  match strip_prefix (split slash source_root) (split slash leaf) with
  | Some sfx => Some (followed_by dest_root sfx)
  | None => None
  end.

(** ** Absent connection arguments, in the spec's words *)

Definition is_copy (op : operation) : bool :=
  match op with CopyPath | CopySecret => true | _ => false end.

(** An address is absent when it is [None] or empty, a token when it is
    [None] or [False]. *)
Definition absent_addr (v : pyval) : bool := py_in v [PNone; PStr EmptyString].
Definition absent_token (v : pyval) : bool := py_in v [PNone; PBool false].

Definition name_if (b : bool) (name : string) : list string :=
  if b then [name] else [].

(** The names of the absent arguments among those [op] requires. *)
Definition missing_names (op : operation) (kw : KwArgs) : list string :=
  name_if (absent_addr (vault_addr kw)) "vault-addr" ++
  name_if (absent_token (vault_token kw)) "vault-token" ++
  (if is_copy op then
     name_if (absent_addr (vault_target_addr kw)) "vault-target-addr" ++
     name_if (absent_token (vault_target_token kw)) "vault-target-token"
   else []).

(** ** The choice of the operation, in the spec's words *)

Definition flag (op : operation) (kw : KwArgs) : bool :=
  match op with
  | CopyPath => truthy_pair (copy_path kw)
  | CopySecret => truthy_pair (copy_secret kw)
  | Delete => truthy_list (delete kw)
  | Count => truthy_list (count kw)
  | FindDuplicates => truthy_list (find_duplicates kw)
  | SecretsTree => truthy_list (secrets_tree kw)
  end.

(** "copy-path, copy-secret, delete, count, find-duplicates,
    secrets-tree" *)
Definition priority : list operation :=
  [CopyPath; CopySecret; Delete; Count; FindDuplicates; SecretsTree].

(** The first operation, in priority order, whose flag is supplied. *)
Definition selected (kw : KwArgs) : option operation :=
  find (fun op => flag op kw) priority.

(** The place of an operation in the priority order. *)
Definition rank (op : operation) : nat :=
  match op with
  | CopyPath => 0
  | CopySecret => 1
  | Delete => 2
  | Count => 3
  | FindDuplicates => 4
  | SecretsTree => 5
  end.

(** ** The Duplicate Detector, in the spec's words *)

(** A triple (path, key, value). *)
Record triple : Type := mkTriple {
  t_path : string;
  t_key : string;
  t_value : string
}.

(** The triples of a snapshot, leaf after leaf, key after key. *)
Definition triples (kv_full : sdict doc) : list triple :=
  flat_map (fun pd : string * doc =>
              map (fun kv : string * string =>
                     mkTriple (fst pd) (fst kv) (snd kv)) (snd pd))
           kv_full.

(** The locator [path:key] of a triple. *)
Definition locator_of (t : triple) : string := t_path t +++ ":" +++ t_key t.

(** The triples whose value is exactly [v]. *)
Definition with_value (ts : list triple) (v : string) : list triple :=
  filter (fun t => String.eqb (t_value t) v) ts.

(** The group of [v]: the locators of the triples whose value is [v]. *)
Definition group_of (ts : list triple) (v : string) : list string :=
  map locator_of (with_value ts v).

(** One step of the two nested loops, on a triple. *)
Definition add_triple (vc : sdict (list string)) (t : triple)
    : sdict (list string) :=
  add_value vc (t_path t) (t_key t) (t_value t).

(** [len(values_count[elem]) > 1] *)
Definition is_group (e : string * list string) : bool :=
  Nat.ltb 1 (List.length (snd e)).


(** ** Sample inputs *)

(** Two instances: the source holds [app/db], [app/api] and [solo]; the
    target is empty. *)
Definition demo_world : mem_world :=
  [ (PStr "https://src",
     [ ("app/db", [("user", "a"); ("pass", "b")]);
       ("app/api", [("key", "x")]);
       ("solo", [("k", "a")]) ]);
    (PStr "https://dst", []) ].

Definition demo_environ : sdict string := [("VAULT_ADDR", "https://src")].

(** All four connection arguments, no operation. *)
Definition demo_kw : KwArgs :=
  mkKwArgs (PStr "https://src") (PStr "s-token")
           (PStr "https://dst") (PStr "d-token")
           false false None None None None None None None.

Definition with_copy_path (kw : KwArgs) (src dst : string) : KwArgs :=
  mkKwArgs (vault_addr kw) (vault_token kw) (vault_target_addr kw)
           (vault_target_token kw) (dry_run kw) (skip_tls kw)
           (Some (src, dst)) None None None None None (exclude kw).

Definition with_copy_secret (kw : KwArgs) (src dst : string) : KwArgs :=
  mkKwArgs (vault_addr kw) (vault_token kw) (vault_target_addr kw)
           (vault_target_token kw) (dry_run kw) (skip_tls kw)
           None (Some (src, dst)) None None None None (exclude kw).

Definition with_delete (kw : KwArgs) (roots : list string) : KwArgs :=
  mkKwArgs (vault_addr kw) (vault_token kw) (vault_target_addr kw)
           (vault_target_token kw) (dry_run kw) (skip_tls kw)
           None None (Some roots) None None None (exclude kw).

Definition with_count (kw : KwArgs) (roots : list string) : KwArgs :=
  mkKwArgs (vault_addr kw) (vault_token kw) (vault_target_addr kw)
           (vault_target_token kw) (dry_run kw) (skip_tls kw)
           None None None (Some roots) None None (exclude kw).

Definition with_find_duplicates (kw : KwArgs) (roots : list string)
    : KwArgs :=
  mkKwArgs (vault_addr kw) (vault_token kw) (vault_target_addr kw)
           (vault_target_token kw) (dry_run kw) (skip_tls kw)
           None None None None (Some roots) None (exclude kw).

(** The source connection without its token. *)
Definition without_token (kw : KwArgs) : KwArgs :=
  mkKwArgs (vault_addr kw) PNone (vault_target_addr kw)
           (vault_target_token kw) (dry_run kw) (skip_tls kw)
           (copy_path kw) (copy_secret kw) (delete kw) (count kw)
           (find_duplicates kw) (secrets_tree kw) (exclude kw).

(** ** What a method does to the store and which calls it makes *)

Section Discipline.
Variable B : Backend.

(** From any state, [m] only appends to the trace and to the output, the
    calls it appends all satisfy [P], and, when [keep] is set, the store
    is left as it was. *)
Definition obeys {A} (P : call -> Prop) (keep : bool) (m : M B A) : Prop :=
  forall s,
    exists w cs os,
      snd (m s) = ext s w cs os /\
      Forall P cs /\
      (keep = true -> w = st_world s).

End Discipline.

Arguments obeys {B A} P keep m.

(** A call that is neither a write nor a delete. *)
Definition reads_only (c : call) : Prop :=
  is_write c = false /\ is_delete c = false.

(** A call that, when it is a write, asks for the values to be hidden. *)
Definition hides_values (c : call) : Prop :=
  match c with
  | CWrite _ _ _ hide_all => hide_all = true
  | _ => True
  end.

(** A call on the connection built from [vault_addr] and [vault_token]. *)
Definition on_source (kw : KwArgs) (c : call) : Prop :=
  match c with
  | CInit addr dry skip =>
      addr = vault_addr kw /\ dry = dry_run kw /\ skip = skip_tls kw
  | CAuthenticate cl | CList cl _ _ | CReadSecret cl _ | CRead cl _
  | CWrite cl _ _ _ | CDelete cl _ => cl = source_client kw
  end.

(** The operations that are meant to read only. *)
Definition is_read_only (op : operation) : bool :=
  match op with
  | Count | FindDuplicates | SecretsTree => true
  | _ => false
  end.

(** ** Segments *)

(** [sep in s] *)
Fixpoint contains (sep : ascii) (s : string) : bool :=
  match s with
  | EmptyString => false
  | String c s' => Ascii.eqb c sep || contains sep s'
  end.

(** The dictionary [kv_secrets_tree] fills, root after root. *)
Definition tree_of (B : Backend) (w : world B) (c : VaultClient)
    (excluded roots : list string) (d : sdict (list string))
    : sdict (list string) :=
  fold_left (fun d root => sset root (listed B w c excluded root) d) roots d.

Definition with_secrets_tree (kw : KwArgs) (roots : list string) : KwArgs :=
  mkKwArgs (vault_addr kw) (vault_token kw) (vault_target_addr kw)
           (vault_target_token kw) (dry_run kw) (skip_tls kw)
           None None None None None (Some roots) (exclude kw).

(** The calls an operation is meant to make: a copy never deletes, a
    delete never writes, the others do neither. *)
Definition allowed (op : operation) (c : call) : Prop :=
  match op with
  | CopyPath | CopySecret => is_delete c = false
  | Delete => is_write c = false
  | Count | FindDuplicates | SecretsTree => reads_only c
  end.

(** The calls of [kv_count]'s loop: for each root, the listing, then a
    read of every listed entry. *)
Definition count_calls (B : Backend) (w : world B) (c : VaultClient)
    (excluded roots : list string) : list call :=
  flat_map (fun r => CList c r (Some excluded)
                     :: map (CRead c) (listed B w c excluded r)) roots.

(** A source instance that also holds a document with no key. *)
Definition hollow_world : mem_world :=
  [ (PStr "https://src",
     [ ("app/db", [("user", "a"); ("pass", "b")]);
       ("hollow", []) ]);
    (PStr "https://dst", []) ].
(** * Properties *)

(** ** The model on the spec's examples *)

Example split_example : split slash "app/db" = ["app"; "db"].
Proof. reflexivity. Qed.

Example split_trailing_example : split slash "app/" = ["app"; EmptyString].
Proof. reflexivity. Qed.

Example secret_target_path_example :
  secret_target_path "app" "backup/app" "app/team/db" = "backup/app/team/db".
Proof. reflexivity. Qed.

(** Leaves [app/db] with two keys and [app/api] with one: two secrets,
    three values. *)
Example count_example :
  secrets_count MemStore demo_world (source_client demo_kw) [] "app" = 2%Z /\
  values_count MemStore demo_world (source_client demo_kw) [] "app" = 3%Z.
Proof. split; reflexivity. Qed.

(** Leaves [a], [b], [c] with values [v], [v], [w]: one group,
    [a:k1] and [b:k2]. *)
Example duplicates_example :
  fst (group_duplicates
         (count_values [ ("a", [("k1", "v")]); ("b", [("k2", "v")]);
                         ("c", [("k3", "w")]) ])) =
  [(0%Z, ["a:k1"; "b:k2"])].
Proof. reflexivity. Qed.

(** A root written with a trailing [/] lists the same leaves. *)
Example trailing_slash_root_example :
  mem_list demo_world (source_client demo_kw) "app/" None =
  ["app/db"; "app/api"].
Proof. reflexivity. Qed.

Example missing_names_example :
  missing_names CopyPath (without_token demo_kw) = ["vault-token"].
Proof. reflexivity. Qed.

(** ** Dictionaries *)

Lemma sget_sset_same {V} (k : string) (v : V) (d : sdict V) :
  sget k (sset k v d) = Some v.
Proof.
  unfold sget, sset.
  induction d as [|[k' v'] d IH]; simpl.
  - now rewrite String.eqb_refl.
  - destruct (String.eqb k k') eqn:E; simpl.
    + now rewrite String.eqb_refl.
    + now rewrite E.
Qed.

Lemma sget_sset_other {V} (k k' : string) (v : V) (d : sdict V) :
  k' <> k -> sget k' (sset k v d) = sget k' d.
Proof.
  intros Hne. unfold sget, sset.
  induction d as [|[k0 v0] d IH]; simpl.
  - destruct (String.eqb k' k) eqn:E; [apply String.eqb_eq in E; contradiction | reflexivity].
  - destruct (String.eqb k k0) eqn:E; simpl.
    + apply String.eqb_eq in E; subst k0.
      destruct (String.eqb k' k) eqn:E'; [apply String.eqb_eq in E'; contradiction | reflexivity].
    + destruct (String.eqb k' k0); [reflexivity | exact IH].
Qed.

Lemma sset_keys_in {V} (k : string) (v : V) (d : sdict V) (x : string) :
  In x (map fst (sset k v d)) <-> x = k \/ In x (map fst d).
Proof.
  unfold sset.
  induction d as [|[k0 v0] d IH]; simpl.
  - intuition congruence.
  - destruct (String.eqb k k0) eqn:E; simpl.
    + apply String.eqb_eq in E; subst k0. intuition congruence.
    + rewrite IH. intuition congruence.
Qed.

Lemma sset_keys_NoDup {V} (k : string) (v : V) (d : sdict V) :
  NoDup (map fst d) -> NoDup (map fst (sset k v d)).
Proof.
  unfold sset.
  induction d as [|[k0 v0] d IH]; simpl; intros Hnd.
  - constructor; [intros [] | constructor].
  - inversion Hnd as [|? ? Hnotin Hnd']; subst.
    destruct (String.eqb k k0) eqn:E; simpl.
    + apply String.eqb_eq in E; subst k0. now constructor.
    + constructor; [|now apply IH].
      intros Hin. apply (sset_keys_in k v d k0) in Hin.
      destruct Hin as [->|Hin]; [now rewrite String.eqb_refl in E | contradiction].
Qed.

Lemma sget_In {V} (k : string) (v : V) (d : sdict V) :
  sget k d = Some v -> In (k, v) d.
Proof.
  unfold sget.
  induction d as [|[k0 v0] d IH]; simpl; [discriminate|].
  destruct (String.eqb k k0) eqn:E.
  - apply String.eqb_eq in E; subst k0. intros [= ->]. now left.
  - intros H. right. now apply IH.
Qed.

Lemma In_sget {V} (k : string) (v : V) (d : sdict V) :
  NoDup (map fst d) -> In (k, v) d -> sget k d = Some v.
Proof.
  unfold sget.
  induction d as [|[k0 v0] d IH]; simpl; [intros _ []|].
  intros Hnd Hin. inversion Hnd as [|? ? Hnotin Hnd']; subst.
  destruct Hin as [[= -> ->]|Hin].
  - now rewrite String.eqb_refl.
  - destruct (String.eqb k k0) eqn:E.
    + apply String.eqb_eq in E; subst k0.
      exfalso. apply Hnotin. now apply (in_map fst) in Hin.
    + now apply IH.
Qed.

Lemma sget_None_keys {V} (k : string) (d : sdict V) :
  sget k d = None <-> ~ In k (map fst d).
Proof.
  unfold sget.
  induction d as [|[k0 v0] d IH]; simpl.
  - intuition.
  - destruct (String.eqb k k0) eqn:E.
    + apply String.eqb_eq in E; subst k0. split; [discriminate | intros H; exfalso; auto].
    + rewrite IH. apply String.eqb_neq in E. intuition congruence.
Qed.

(** ** The state monad of the methods *)

Section Facts.
Variable B : Backend.
Variable environ : sdict string.

Lemma ext_ext (s : state B) w cs os w' cs' os' :
  ext (ext s w cs os) w' cs' os' = ext s w' (cs ++ cs') (os ++ os').
Proof. unfold ext; simpl. now rewrite !app_assoc. Qed.

Lemma ext_id (s : state B) : ext s (st_world s) [] [] = s.
Proof. destruct s; unfold ext; simpl. now rewrite !app_nil_r. Qed.

Lemma bind_Return {A C} (m : M B A) (f : A -> M B C) s a s' :
  m s = (Return a, s') -> bind B m f s = f a s'.
Proof. intros H. unfold bind. now rewrite H. Qed.

Lemma bind_Raise {A C} (m : M B A) (f : A -> M B C) s e s' :
  m s = (Raise e, s') -> bind B m f s = (Raise e, s').
Proof. intros H. unfold bind. now rewrite H. Qed.

Lemma logger_spec lvl m s :
  logger B lvl m s = (Return tt, ext s (st_world s) [] [Log lvl m]).
Proof. unfold logger, emit, ext. now rewrite app_nil_r. Qed.

Lemma emit_spec o s :
  emit B o s = (Return tt, ext s (st_world s) [] [o]).
Proof. unfold emit, ext. now rewrite app_nil_r. Qed.

Lemma connect_spec kw a t s :
  connect_to_vault B kw a t s =
  (Return (mkClient a (dry_run kw) (skip_tls kw) t),
   ext s (st_world s)
       [CInit a (dry_run kw) (skip_tls kw);
        CAuthenticate (mkClient a (dry_run kw) (skip_tls kw) t)]
       [Log DEBUG [LStr "Connecting to Vault instance '"; py_arg a;
                   LStr "'"]]).
Proof.
  unfold connect_to_vault, bind, logger, emit, record, ret, ext; simpl.
  now rewrite <- app_assoc.
Qed.

Lemma read_loop_spec c kv_list : forall acc s,
  fold_for B kv_list acc (read_into B c) s =
  (Return (snapshot_from B (st_world s) c kv_list acc),
   ext s (st_world s) (map (CReadSecret c) kv_list) []).
Proof.
  induction kv_list as [|kv l IH]; intros acc s; simpl.
  - unfold ret. now rewrite ext_id.
  - unfold bind at 1. unfold read_into at 1, bind, read_secret, ret; simpl.
    rewrite IH; simpl. unfold ext; simpl.
    now rewrite <- !app_assoc.
Qed.

Lemma read_from_vault_spec root c s :
  read_from_vault B root c s =
  (Return (snapshot B (st_world s) c root),
   ext s (st_world s)
       (CList c root None ::
        map (CReadSecret c) (vc_secrets_tree_list B (st_world s) c root None))
       [Log DEBUG [LStr "Reading kv tree"];
        Log DEBUG [LStr "Secrets found: ";
                   LList (vc_secrets_tree_list B (st_world s) c root None)]]).
Proof.
  unfold read_from_vault.
  unfold bind at 1. rewrite logger_spec.
  unfold bind at 1. unfold secrets_tree_list at 1; simpl.
  unfold bind at 1. rewrite logger_spec; simpl.
  rewrite read_loop_spec; simpl. unfold snapshot, ext; simpl.
  now rewrite <- !app_assoc.
Qed.

Lemma sset_In {V} (k : string) (v : V) (d : sdict V) k' v' :
  In (k', v') (sset k v d) -> (k' = k /\ v' = v) \/ In (k', v') d.
Proof.
  unfold sset.
  induction d as [|[k0 v0] d IH]; simpl.
  - intros [[= <- <-]|[]]. now left.
  - destruct (String.eqb k k0) eqn:E; simpl.
    + intros [[= <- <-]|Hin]; [now left | right; now right].
    + intros [Heq|Hin]; [right; now left|].
      destruct (IH Hin) as [H|H]; [now left | right; now right].
Qed.

Lemma snapshot_from_keys w c l : forall acc k,
  In k (map fst (snapshot_from B w c l acc)) <-> In k l \/ In k (map fst acc).
Proof.
  unfold snapshot_from.
  induction l as [|x l IH]; intros acc k; simpl.
  - intuition.
  - rewrite IH, sset_keys_in. intuition congruence.
Qed.

Lemma snapshot_from_NoDup w c l : forall acc,
  NoDup (map fst acc) -> NoDup (map fst (snapshot_from B w c l acc)).
Proof.
  unfold snapshot_from.
  induction l as [|x l IH]; intros acc Hnd; simpl; [exact Hnd|].
  apply IH. now apply sset_keys_NoDup.
Qed.

Lemma snapshot_from_value w c l : forall acc,
  (forall k d, In (k, d) acc -> d = vc_read_secret B w c k) ->
  forall k d, In (k, d) (snapshot_from B w c l acc) ->
              d = vc_read_secret B w c k.
Proof.
  unfold snapshot_from.
  induction l as [|x l IH]; intros acc Hacc k d; simpl; [apply Hacc|].
  apply IH. intros k' d' Hin.
  destruct (sset_In _ _ _ _ _ Hin) as [[-> ->]|Hin']; [reflexivity | now apply Hacc].
Qed.

(** The snapshot holds each listed leaf once, with the document read
    there. *)
Lemma snapshot_keys w c root k :
  In k (map fst (snapshot B w c root)) <->
  In k (vc_secrets_tree_list B w c root None).
Proof. unfold snapshot. rewrite snapshot_from_keys. simpl. intuition. Qed.

Lemma snapshot_NoDup w c root : NoDup (map fst (snapshot B w c root)).
Proof. apply snapshot_from_NoDup. constructor. Qed.

Lemma snapshot_value w c root k d :
  In (k, d) (snapshot B w c root) -> d = vc_read_secret B w c k.
Proof. apply snapshot_from_value. intros ? ? []. Qed.


Lemma push_loop_spec src dst c items : forall s,
  exists os,
    for_each B items (push_one B src dst c) s =
    (Return tt,
     ext s (push_world B src dst c items (st_world s))
         (map (push_call src dst c) items) os).
Proof.
  induction items as [|it l IH]; intros s; simpl.
  - exists []. unfold ret. now rewrite ext_id.
  - unfold bind at 1. unfold push_one at 1, bind, logger, emit, write; simpl.
    match goal with |- context [for_each B l _ ?s0] =>
      destruct (IH s0) as [os Hos]; rewrite Hos end.
    eexists. unfold ext; simpl.
    rewrite <- !app_assoc. simpl. reflexivity.
Qed.

Lemma push_to_vault_spec src dst c items s :
  exists os,
    push_to_vault B src items dst c s =
    (Return tt,
     ext s (push_world B src dst c items (st_world s))
         (map (push_call src dst c) items) os).
Proof.
  unfold push_to_vault. unfold bind at 1. rewrite logger_spec.
  destruct (push_loop_spec src dst c items
              (ext s (st_world s) [] [Log DEBUG [LStr "Pushing exported kv to Vault"]]))
    as [os Hos].
  rewrite Hos. eexists. rewrite ext_ext. simpl. reflexivity.
Qed.

Lemma filter_write_reads c l : filter is_write (map (CReadSecret c) l) = [].
Proof. induction l; simpl; auto. Qed.

Lemma filter_write_push src dst c items :
  filter is_write (map (push_call src dst c) items) =
  map (push_call src dst c) items.
Proof. induction items; simpl; [reflexivity | now f_equal]. Qed.

(** What [kv_copy_path] does once the four connection arguments are
    there: it reads the snapshot, refuses an empty one and one that is
    the root alone, and otherwise pushes every item. *)
Lemma kv_copy_path_spec kw src dst s :
  keys_exists_in_dict (asdict kw) copy_keys = [] ->
  copy_path kw = Some (src, dst) ->
  let snap := snapshot B (st_world s) (source_client kw) src in
  exists cs os os',
    filter is_write cs = [] /\
    kv_copy_path B kw s =
    if Nat.eqb (List.length snap) 0 then
      (Raise (AttributeError no_path_to_copy), ext s (st_world s) cs os)
    else if only_root snap src then
      (Raise (AttributeError use_copy_secret), ext s (st_world s) cs os)
    else
      (Return tt,
       ext s (push_world B src dst (source_client kw) snap (st_world s))
           (cs ++ map (push_call src dst (source_client kw)) snap) os').
Proof.
  intros Hmiss Hcp snap.
  unfold kv_copy_path.
  unfold bind at 1. rewrite logger_spec. rewrite Hmiss, Hcp. cbn [List.length Nat.eqb negb].
  unfold bind at 1. rewrite logger_spec.
  unfold bind at 1. rewrite connect_spec.
  unfold bind at 1. rewrite read_from_vault_spec.
  rewrite !ext_ext. cbn [ext st_world].
  fold (source_client kw). fold snap.
  destruct (Nat.eqb (List.length snap) 0) eqn:Elen.
  - refine (ex_intro _ _ (ex_intro _ _ (ex_intro _ [] _))).
    split; [|unfold raise; reflexivity].
    simpl. apply filter_write_reads.
  - destruct (only_root snap src) eqn:Eonly.
    + refine (ex_intro _ _ (ex_intro _ _ (ex_intro _ [] _))).
      split; [|unfold raise; reflexivity].
      simpl. apply filter_write_reads.
    + unfold bind at 1. rewrite connect_spec.
      unfold bind at 1. cbn [ext st_world].
      match goal with |- context [push_to_vault B src snap dst ?c ?s0] =>
        destruct (push_to_vault_spec src dst c snap s0) as [os Hos]; rewrite Hos end.
      rewrite logger_spec.
      exists ([CInit (vault_addr kw) (dry_run kw) (skip_tls kw);
               CAuthenticate (source_client kw)] ++
              (CList (source_client kw) src None
               :: map (CReadSecret (source_client kw))
                    (vc_secrets_tree_list B (st_world s) (source_client kw)
                                          src None)) ++
              [CInit (vault_addr kw) (dry_run kw) (skip_tls kw);
               CAuthenticate (source_client kw)]).
      refine (ex_intro _ [] (ex_intro _ _ _)). split.
      * simpl. rewrite filter_app. simpl. now rewrite filter_write_reads.
      * f_equal. rewrite !ext_ext. cbn [st_world ext].
        unfold ext, source_client. f_equal.
        all: cbn [st_world st_calls st_out]; repeat rewrite <- app_assoc;
          cbn [app]; first [reflexivity | rewrite app_nil_r; reflexivity].
Qed.

Lemma only_root_iff (snap : sdict doc) (root : string) :
  only_root snap root = true <-> map fst snap = [root].
Proof.
  unfold only_root.
  destruct snap as [|[k d] [|e l]]; simpl.
  - split; discriminate.
  - rewrite String.eqb_eq. split; congruence.
  - split; discriminate.
Qed.

(** What [kv_copy_secret] does once the four connection arguments are
    there. *)
Lemma kv_copy_secret_spec kw src dst s :
  keys_exists_in_dict (asdict kw) copy_keys = [] ->
  copy_secret kw = Some (src, dst) ->
  let d := vc_read B (st_world s) (source_client kw) src in
  exists os os',
    kv_copy_secret B kw s =
    if Nat.eqb (List.length d) 0 then
      (Raise (AttributeError (not_a_secret src)),
       ext s (st_world s)
           [CInit (vault_addr kw) (dry_run kw) (skip_tls kw);
            CAuthenticate (source_client kw);
            CRead (source_client kw) src] os)
    else
      (Return tt,
       ext s (vc_write B (st_world s) (source_client kw) dst d true)
           [CInit (vault_addr kw) (dry_run kw) (skip_tls kw);
            CAuthenticate (source_client kw);
            CRead (source_client kw) src;
            CInit (vault_addr kw) (dry_run kw) (skip_tls kw);
            CAuthenticate (source_client kw);
            CWrite (source_client kw) dst d true] os').
Proof.
  intros Hmiss Hcs d.
  unfold kv_copy_secret.
  unfold bind at 1. rewrite logger_spec. rewrite Hmiss, Hcs.
  cbn [List.length Nat.eqb negb].
  unfold bind at 1. rewrite logger_spec.
  unfold bind at 1. rewrite connect_spec.
  unfold bind at 1. unfold read at 1.
  rewrite !ext_ext. cbn [ext st_world st_calls st_out].
  fold (source_client kw). fold d.
  destruct (Nat.eqb (List.length d) 0) eqn:Elen.
  - refine (ex_intro _ _ (ex_intro _ [] _)).
    unfold raise, ext. f_equal. f_equal.
    all: cbn [st_world st_calls st_out]; repeat rewrite <- app_assoc;
      cbn [app]; first [reflexivity | rewrite app_nil_r; reflexivity].
  - unfold bind at 1. rewrite connect_spec.
    unfold bind at 1. unfold write at 1. rewrite logger_spec.
    refine (ex_intro _ [] (ex_intro _ _ _)).
    unfold ext, source_client. f_equal. f_equal.
    all: cbn [st_world st_calls st_out]; repeat rewrite <- app_assoc;
      cbn [app]; first [reflexivity | rewrite app_nil_r; reflexivity].
Qed.

Lemma method_missing op kw s :
  keys_exists_in_dict (asdict kw) (required_keys op) <> [] ->
  method B environ op kw s =
  (Raise (missing_error
            (keys_exists_in_dict (asdict kw) (required_keys op))),
   ext s (st_world s) [] [starting op]).
Proof.
  intros Hne.
  destruct op; unfold method, required_keys in *;
    [ unfold kv_copy_path | unfold kv_copy_secret | unfold kv_delete
    | unfold kv_count | unfold kv_find_duplicates | unfold kv_secrets_tree ];
    unfold bind at 1; rewrite logger_spec;
    match goal with
    | H : ?m <> [] |- _ => destruct m eqn:E; [contradiction|]
    end; reflexivity.
Qed.

Lemma missing_names_spec op kw :
  dashed (keys_exists_in_dict (asdict kw) (required_keys op)) =
  missing_names op kw.
Proof.
  unfold missing_names, absent_addr, absent_token, name_if.
  destruct op; cbn -[py_in];
    repeat match goal with
           | |- context [py_in ?v ?l] => destruct (py_in v l)
           end; reflexivity.
Qed.

(** ** Splitting and joining paths *)

Lemma split_not_nil sep s : split sep s <> [].
Proof.
  destruct s as [|c s]; simpl; [discriminate|].
  destruct (Ascii.eqb c sep); [discriminate|].
  destruct (split sep s); discriminate.
Qed.

Lemma list_to_string_cons x y l sep :
  list_to_string (x :: y :: l) sep = x +++ sep +++ list_to_string (y :: l) sep.
Proof. reflexivity. Qed.

(** Joining the segments of a path gives the path back. *)
Lemma join_split s : list_to_string (split slash s) "/" = s.
Proof.
  induction s as [|c s IH]; simpl; [reflexivity|].
  destruct (Ascii.eqb c slash) eqn:E.
  - apply Ascii.eqb_eq in E; subst c.
    destruct (split slash s) as [|w ws] eqn:Es; [now apply split_not_nil in Es|].
    rewrite list_to_string_cons, IH. reflexivity.
  - destruct (split slash s) as [|w ws] eqn:Es; [now apply split_not_nil in Es|].
    destruct ws as [|w' ws].
    + rewrite <- IH. reflexivity.
    + rewrite <- IH. reflexivity.
Qed.

Lemma append_assoc (a b c : string) : (a +++ b) +++ c = a +++ b +++ c.
Proof. induction a; simpl; [reflexivity | now rewrite IHa]. Qed.

Lemma join_app a b :
  a <> [] -> b <> [] ->
  list_to_string (a ++ b) "/" =
  list_to_string a "/" +++ "/" +++ list_to_string b "/".
Proof.
  intros Ha Hb. induction a as [|x a IH]; [contradiction|].
  destruct a as [|y a].
  - destruct b as [|z b]; [contradiction|]. reflexivity.
  - change ((x :: y :: a) ++ b) with (x :: y :: (a ++ b)).
    rewrite !list_to_string_cons.
    change (y :: a ++ b) with ((y :: a) ++ b).
    rewrite IH by discriminate.
    now rewrite !append_assoc.
Qed.

(** [dest_root] followed by a suffix, as text. *)
Lemma followed_by_text dest_root sfx :
  followed_by dest_root sfx =
  match sfx with
  | [] => dest_root
  | _ => dest_root +++ "/" +++ list_to_string sfx "/"
  end.
Proof.
  unfold followed_by. destruct sfx as [|x l].
  - rewrite app_nil_r. apply join_split.
  - rewrite join_app; [|apply split_not_nil|discriminate].
    now rewrite join_split.
Qed.

Lemma strip_prefix_Some root : forall leaf sfx,
  strip_prefix root leaf = Some sfx <-> leaf = root ++ sfx.
Proof.
  induction root as [|x r IH]; intros leaf sfx; simpl.
  - split; congruence.
  - destruct leaf as [|y l]; [split; discriminate|].
    destruct (String.eqb x y) eqn:E.
    + apply String.eqb_eq in E; subst y. rewrite IH. split; congruence.
    + apply String.eqb_neq in E. split; [discriminate | congruence].
Qed.

(** Where the spec's remapping is defined, the path the code computes is
    the remapped path. *)
Lemma remap_secret_target_path src dst leaf q :
  remap src dst leaf = Some q -> secret_target_path src dst leaf = q.
Proof.
  unfold remap, secret_target_path, followed_by.
  destruct (strip_prefix (split slash src) (split slash leaf)) as [sfx|] eqn:E;
    [|discriminate].
  intros [= <-]. apply strip_prefix_Some in E. rewrite E.
  rewrite skipn_app, skipn_all, Nat.sub_diag. reflexivity.
Qed.

(** ** The copy operations *)

(** C2, as the code has it.  For every leaf [p] of the snapshot
    [kv_copy_path] takes at the source root there is one write, in the
    snapshot's order, and its document is the document read at [p].
    When the pieces of [p] between the [/] are those of the source root
    followed by a suffix, the path written is the destination root
    followed by that suffix.  (A root written with a trailing [/] has a
    last, empty piece that no leaf has; see [C2_counterexample].) *)
Theorem C2_copy_path_suffix_preserving kw src dst (s : state B) :
  keys_exists_in_dict (asdict kw) copy_keys = [] ->
  copy_path kw = Some (src, dst) ->
  let snap := snapshot B (st_world s) (source_client kw) src in
  snap <> [] ->
  map fst snap <> [src] ->
  exists cs os w',
    kv_copy_path B kw s = (Return tt, ext s w' cs os) /\
    Forall2
      (fun (leaf : string * doc) (c : call) =>
         snd leaf =
           vc_read_secret B (st_world s) (source_client kw) (fst leaf) /\
         exists client p,
           c = CWrite client p (snd leaf) true /\
           forall sfx,
             split slash (fst leaf) = split slash src ++ sfx ->
             p = followed_by dst sfx)
      snap (filter is_write cs).
Proof.
  intros Hmiss Hcp snap Hne Hnot.
  destruct (kv_copy_path_spec kw src dst s Hmiss Hcp)
    as (cs & os & os' & Hcs & Heq).
  fold snap in Heq.
  destruct (Nat.eqb (List.length snap) 0) eqn:Elen.
  { destruct snap; [contradiction | discriminate]. }
  destruct (only_root snap src) eqn:Eonly.
  { apply only_root_iff in Eonly. contradiction. }
  exists (cs ++ map (push_call src dst (source_client kw)) snap), os',
         (push_world B src dst (source_client kw) snap (st_world s)).
  split; [exact Heq|].
  rewrite filter_app, Hcs, filter_write_push. cbn [app].
  assert (Hval : forall leaf, In leaf snap ->
            snd leaf = vc_read_secret B (st_world s) (source_client kw) (fst leaf)).
  { intros [p d] Hin. apply (snapshot_value _ _ _ _ _ Hin). }
  clear - Hval. induction snap as [|leaf l IH]; simpl; constructor.
  - split; [apply Hval; now left|].
    exists (source_client kw), (secret_target_path src dst (fst leaf)).
    split; [reflexivity|].
    intros sfx Hsfx. apply remap_secret_target_path.
    unfold remap. apply strip_prefix_Some in Hsfx. now rewrite Hsfx.
  - apply IH. intros leaf' Hin. apply Hval. now right.
Qed.


(** C9. [kv_copy_secret] reads the document at the source path; when it
    is empty it raises the error that points to [--copy-path], leaves the
    store as it was and makes no write; otherwise it returns after
    exactly one write, of that document unchanged, at the destination
    path. *)
Theorem C9_copy_secret_reads_then_writes_once kw src dst (s : state B) :
  keys_exists_in_dict (asdict kw) copy_keys = [] ->
  copy_secret kw = Some (src, dst) ->
  let d := vc_read B (st_world s) (source_client kw) src in
  exists r w' cs os,
    kv_copy_secret B kw s = (r, ext s w' cs os) /\
    In (CRead (source_client kw) src) cs /\
    match d with
    | [] =>
        r = Raise (AttributeError
                     ("'" +++ src +++ "' is not a valid secret. If you're trying to copy a path, use --copy-path instead")) /\
        w' = st_world s /\ filter is_write cs = []
    | _ =>
        r = Return tt /\
        exists client, filter is_write cs = [CWrite client dst d true]
    end.
Proof.
  intros Hmiss Hcs d.
  destruct (kv_copy_secret_spec kw src dst s Hmiss Hcs) as (os & os' & Heq).
  fold d in Heq.
  destruct d as [|e l] eqn:Ed; cbn [List.length Nat.eqb] in Heq.
  - do 4 eexists. split; [exact Heq|]. split; [simpl; auto|].
    repeat split.
  - do 4 eexists. split; [exact Heq|]. split; [simpl; auto|].
    split; [reflexivity|]. eexists. reflexivity.
Qed.

(** C8. Whatever the operation, when one of the connection arguments it
    requires is absent the method raises the error that names the absent
    arguments, having made no call on any store client: the trace and
    the store are as before. *)
Theorem C8_missing_arguments_abort_before_any_call op kw (s : state B) :
  missing_names op kw <> [] ->
  exists os,
    method B environ op kw s =
    (Raise (ValueError [LStr "Following arguments are missing ";
                        LList (missing_names op kw)]),
     mkState (st_world s) (st_calls s) os).
Proof.
  intros Hne.
  assert (Hk : keys_exists_in_dict (asdict kw) (required_keys op) <> []).
  { intros Hnil. apply Hne. rewrite <- missing_names_spec, Hnil. reflexivity. }
  rewrite (method_missing op kw s Hk).
  unfold missing_error. rewrite missing_names_spec.
  eexists. unfold ext. rewrite app_nil_r. reflexivity.
Qed.

(** ** Delete Subtree *)

Lemma delete_loop_spec c ls : forall (s : state B),
  exists os,
    for_each B ls (delete_one B c) s =
    (Return tt,
     ext s (delete_all B (st_world s) c ls) (map (CDelete c) ls) os) /\
    filter is_error os = [].
Proof.
  induction ls as [|p l IH]; intros s; simpl.
  - exists []. unfold ret. now rewrite ext_id.
  - unfold bind at 1. unfold delete_one at 1, bind, logger, emit, vault_delete;
      simpl.
    match goal with |- context [for_each B l _ ?s0] =>
      destruct (IH s0) as (os & Hos & Herr); rewrite Hos end.
    exists (Log INFO [LStr ("Deleting '" +++ p +++ "'")] :: os).
    split; [|simpl; exact Herr].
    unfold ext; simpl. rewrite <- !app_assoc. reflexivity.
Qed.

Lemma filter_delete_map c ls :
  filter is_delete (map (CDelete c) ls) = map (CDelete c) ls.
Proof. induction ls; simpl; [reflexivity | now f_equal]. Qed.

Lemma filter_delete_reads c l : filter is_delete (map (CReadSecret c) l) = [].
Proof. induction l; simpl; auto. Qed.

Lemma kv_delete_one_spec a c root (s : state B) :
  sget "VAULT_ADDR" environ = Some a ->
  exists cs os,
    kv_delete_one B environ c root s =
    (Return tt,
     ext s (delete_all B (st_world s) c (leaves_at B (st_world s) c root))
         cs os) /\
    filter is_delete cs = map (CDelete c) (leaves_at B (st_world s) c root) /\
    filter is_error os =
      match leaves_at B (st_world s) c root with
      | [] => [no_secrets_to_delete root]
      | _ => []
      end.
Proof.
  intros Henv. unfold kv_delete_one, getenv. rewrite Henv.
  unfold bind at 1. unfold ret at 1.
  unfold bind at 1. rewrite logger_spec.
  unfold bind at 1. rewrite read_from_vault_spec.
  rewrite !ext_ext. cbn [ext st_world].
  unfold leaves_at.
  destruct (snapshot B (st_world s) c root) as [|e l] eqn:Esnap.
  - cbn [List.length Nat.eqb negb map]. rewrite emit_spec, ext_ext.
    do 2 eexists. split; [reflexivity|]. split.
    + simpl. rewrite filter_app. now rewrite filter_delete_reads.
    + reflexivity.
  - cbn [List.length Nat.eqb negb].
    unfold bind at 1. unfold delete_from_vault, getenv. rewrite Henv.
    unfold bind at 1. unfold ret at 1.
    unfold bind at 1. rewrite logger_spec, ext_ext.
    match goal with |- context [for_each B ?ls _ ?s0] =>
      destruct (delete_loop_spec c ls s0) as (os & Hos & Herr); rewrite Hos end.
    rewrite logger_spec, !ext_ext. cbn [ext st_world].
    do 2 eexists. split; [reflexivity|]. split.
    + rewrite !filter_app. cbn [app filter is_delete].
      rewrite filter_delete_map, filter_delete_reads. cbn [app].
      now rewrite ?app_nil_r.
    + rewrite !filter_app, Herr. reflexivity.
Qed.

Lemma kv_delete_loop_spec a c roots : forall (s : state B),
  sget "VAULT_ADDR" environ = Some a ->
  exists cs os,
    for_each B roots (kv_delete_one B environ c) s =
    (Return tt, ext s (delete_subtree_world B (st_world s) c roots) cs os) /\
    filter is_delete cs =
      map (CDelete c) (deleted_leaves B (st_world s) c roots) /\
    filter is_error os =
      map no_secrets_to_delete (reported_roots B (st_world s) c roots).
Proof.
  induction roots as [|r rs IH]; intros s Henv.
  - exists [], []. simpl. unfold ret. now rewrite ext_id.
  - cbn [for_each]. unfold bind at 1.
    destruct (kv_delete_one_spec a c r s Henv) as (cs1 & os1 & H1 & Hd1 & He1).
    rewrite H1.
    destruct (IH (ext s (delete_all B (st_world s) c
                                    (leaves_at B (st_world s) c r)) cs1 os1)
                 Henv) as (cs2 & os2 & H2 & Hd2 & He2).
    rewrite H2, ext_ext. cbn [ext st_world] in *.
    exists (cs1 ++ cs2), (os1 ++ os2). split; [reflexivity|]. split.
    + rewrite filter_app, Hd1, Hd2. cbn [deleted_leaves]. now rewrite map_app.
    + rewrite filter_app, He1, He2. cbn [reported_roots]. rewrite map_app.
      now destruct (leaves_at B (st_world s) c r).
Qed.

(** [kv_delete] carries out Delete Subtree on its roots, whatever they
    hold, and returns. *)
Lemma kv_delete_spec kw roots a (s : state B) :
  keys_exists_in_dict (asdict kw) source_keys = [] ->
  delete kw = Some roots ->
  sget "VAULT_ADDR" environ = Some a ->
  let c := source_client kw in
  exists cs os,
    kv_delete B environ kw s =
    (Return tt, ext s (delete_subtree_world B (st_world s) c roots) cs os) /\
    filter is_delete cs =
      map (CDelete c) (deleted_leaves B (st_world s) c roots) /\
    filter is_error os =
      map no_secrets_to_delete (reported_roots B (st_world s) c roots).
Proof.
  intros Hmiss Hdel Henv c.
  unfold kv_delete.
  unfold bind at 1. rewrite logger_spec. rewrite Hmiss, Hdel.
  cbn [List.length Nat.eqb negb].
  unfold bind at 1. rewrite connect_spec, ext_ext. fold (source_client kw). fold c.
  match goal with |- context [for_each B roots _ ?s0] =>
    destruct (kv_delete_loop_spec a c roots s0 Henv) as (cs & os & H & Hd & He);
    rewrite H end.
  rewrite ext_ext. cbn [ext st_world] in *.
  do 2 eexists. split; [reflexivity|]. split.
  - rewrite filter_app. exact Hd.
  - rewrite filter_app. exact He.
Qed.

(** [kv_delete] reads [os.environ["VAULT_ADDR"]] for its first log line
    of every root: without that variable the first root ends the method
    with a [KeyError], after the connection and before any listing. *)
Lemma kv_delete_without_VAULT_ADDR kw r rs (s : state B) :
  keys_exists_in_dict (asdict kw) source_keys = [] ->
  delete kw = Some (r :: rs) ->
  sget "VAULT_ADDR" environ = None ->
  exists os,
    kv_delete B environ kw s =
    (Raise (KeyError "VAULT_ADDR"),
     ext s (st_world s)
         [CInit (vault_addr kw) (dry_run kw) (skip_tls kw);
          CAuthenticate (source_client kw)] os).
Proof.
  intros Hmiss Hdel Henv.
  unfold kv_delete.
  unfold bind at 1. rewrite logger_spec. rewrite Hmiss, Hdel.
  cbn [List.length Nat.eqb negb].
  unfold bind at 1. rewrite connect_spec, ext_ext.
  cbn [for_each]. unfold bind at 1. unfold kv_delete_one, getenv.
  rewrite Henv. unfold bind at 1. unfold raise.
  eexists. reflexivity.
Qed.

(** ** The entry point *)

(** What [run] does, by the operation selected. *)
Lemma run_spec kw (s : state B) :
  run B environ kw s =
  match selected kw with
  | None =>
      (Return (PBool false),
       mkState (st_world s) (st_calls s)
               (st_out s ++
                [Log ERROR [LStr "One argument should be specified"];
                 PrintHelp]))
  | Some op =>
      bind B (logger B DEBUG [LStr "Module kv started"])
        (fun _ =>
           bind B (try_except_AttributeError B
                     (method B environ op kw)
                     (fun e => logger B ERROR [LStr e]))
                (fun _ => ret B PNone)) s
  end.
Proof.
  unfold run, selected, priority, any, flag. cbn [find existsb].
  destruct (truthy_pair (copy_path kw)); [reflexivity|].
  destruct (truthy_pair (copy_secret kw));
    [now rewrite ?orb_true_r|].
  destruct (truthy_list (delete kw)); [now rewrite ?orb_true_r|].
  destruct (truthy_list (count kw)); [reflexivity|].
  destruct (truthy_list (find_duplicates kw)); [reflexivity|].
  destruct (truthy_list (secrets_tree kw)); [reflexivity|].
  cbn [orb negb]. unfold bind, logger, emit, ret; simpl.
  now rewrite <- app_assoc.
Qed.

(** C10. [run] executes at most one operation.  When no flag is
    supplied it logs an error, prints the help and returns [False]
    without any call on a store client.  Otherwise it runs one method
    and only that one: the method of a supplied flag such that no flag
    before it in the order copy-path, copy-secret, delete, count,
    find-duplicates, secrets-tree is supplied. *)
Theorem C10_run_executes_the_first_selected_operation kw (s : state B) :
  match selected kw with
  | None =>
      (forall op, flag op kw = false) /\
      run B environ kw s =
      (Return (PBool false),
       mkState (st_world s) (st_calls s)
               (st_out s ++
                [Log ERROR [LStr "One argument should be specified"];
                 PrintHelp]))
  | Some op =>
      flag op kw = true /\
      (forall op', rank op' < rank op -> flag op' kw = false) /\
      run B environ kw s =
      bind B (logger B DEBUG [LStr "Module kv started"])
        (fun _ =>
           bind B (try_except_AttributeError B
                     (method B environ op kw)
                     (fun e => logger B ERROR [LStr e]))
                (fun _ => ret B PNone)) s
  end.
Proof.
  pose proof (run_spec kw s) as Hrun. revert Hrun.
  unfold selected, priority. cbn [find].
  destruct (flag CopyPath kw) eqn:F1;
    [|destruct (flag CopySecret kw) eqn:F2;
      [|destruct (flag Delete kw) eqn:F3;
        [|destruct (flag Count kw) eqn:F4;
          [|destruct (flag FindDuplicates kw) eqn:F5;
            [|destruct (flag SecretsTree kw) eqn:F6]]]]];
    intros Hrun.
  1-6: split; [assumption|]; split; [|exact Hrun];
       intros op' Hlt; destruct op'; cbn [rank] in Hlt;
       solve [assumption | lia].
  split; [|exact Hrun]. intros op; destruct op; assumption.
Qed.

(** ** Count *)

Lemma sset_sset {V} (k : string) (v v' : V) (d : sdict V) :
  sset k v (sset k v' d) = sset k v d.
Proof.
  unfold sset. induction d as [|[k0 v0] d IH]; simpl.
  - now rewrite String.eqb_refl.
  - destruct (String.eqb k k0) eqn:E; simpl.
    + now rewrite String.eqb_refl.
    + now rewrite E, IH.
Qed.

Lemma add_len_loop_spec c l : forall acc (s : state B),
  fold_for B l acc (add_len B c) s =
  (Return (acc + sumZ (map (fun p => Z.of_nat
                                       (List.length (vc_read B (st_world s) c p)))
                           l))%Z,
   ext s (st_world s) (map (CRead c) l) []).
Proof.
  induction l as [|p l IH]; intros acc s; simpl.
  - unfold ret. now rewrite ext_id, Z.add_0_r.
  - unfold bind at 1. unfold add_len at 1, bind, read, ret; simpl.
    rewrite IH; simpl. unfold ext; simpl.
    rewrite <- !app_assoc. f_equal. f_equal. lia.
Qed.





(** ** The Duplicate Detector *)

Lemma fold_left_flat_map {A X Y} (f : A -> Y -> A) (g : X -> list Y) l :
  forall a,
    fold_left f (flat_map g l) a =
    fold_left (fun a x => fold_left f (g x) a) l a.
Proof.
  induction l as [|x l IH]; intros a; simpl; [reflexivity|].
  now rewrite fold_left_app, IH.
Qed.

Lemma fold_left_map {A X Y} (f : A -> Y -> A) (g : X -> Y) l :
  forall a, fold_left f (map g l) a = fold_left (fun a x => f a (g x)) l a.
Proof. induction l as [|x l IH]; intros a; simpl; [reflexivity | apply IH]. Qed.

Lemma count_values_triples kv_full :
  count_values kv_full = fold_left add_triple (triples kv_full) [].
Proof.
  unfold count_values, triples.
  rewrite fold_left_flat_map.
  generalize (@nil (string * list string)).
  induction kv_full as [|pd l IH]; intros a; simpl; [reflexivity|].
  rewrite fold_left_map. apply IH.
Qed.

Lemma group_of_snoc ts t v :
  group_of (ts ++ [t]) v =
  group_of ts v ++ (if String.eqb (t_value t) v then [locator_of t] else []).
Proof.
  unfold group_of, with_value. rewrite filter_app, map_app. simpl.
  now destruct (String.eqb (t_value t) v).
Qed.

(** After the two nested loops, [values_count] binds each value that
    occurs to its group, and nothing else. *)
Lemma values_count_spec ts :
  let vc := fold_left add_triple ts [] in
  NoDup (map fst vc) /\
  forall v, sget v vc = match group_of ts v with
                        | [] => None
                        | g => Some g
                        end.
Proof.
  induction ts as [|t ts IH] using rev_ind.
  - simpl. split; [constructor | reflexivity].
  - rewrite fold_left_app. cbn [fold_left].
    set (vc := fold_left add_triple ts []) in *.
    destruct IH as [Hnd Hget].
    split.
    + unfold add_triple, add_value.
      destruct (sget (t_value t) vc); now apply sset_keys_NoDup.
    + intros v. rewrite group_of_snoc. unfold add_triple, add_value.
      destruct (String.eqb (t_value t) v) eqn:E.
      * apply String.eqb_eq in E; subst v.
        rewrite Hget.
        destruct (group_of ts (t_value t)) as [|x g]; rewrite sget_sset_same;
          reflexivity.
      * apply String.eqb_neq in E. rewrite app_nil_r.
        assert (Hne : v <> t_value t) by congruence.
        destruct (sget (t_value t) vc);
          rewrite sget_sset_other by exact Hne; apply Hget.
Qed.

Lemma dict_set_fresh {V} (n : Z) (v : V) (gd : list (Z * V)) :
  (forall k, In k (map fst gd) -> (k < n)%Z) ->
  dict_set Z.eqb n v gd = gd ++ [(n, v)].
Proof.
  induction gd as [|[k x] gd IH]; simpl; intros Hlt; [reflexivity|].
  destruct (Z.eqb n k) eqn:E.
  - apply Z.eqb_eq in E. specialize (Hlt k (or_introl eq_refl)). lia.
  - f_equal. apply IH. intros k' Hin. apply Hlt. now right.
Qed.

(** [grouped_duplicates] holds, under the indexes [0], [1], ..., the
    lists of [values_count] that have more than one member, in order. *)
Lemma group_duplicates_gen vc : forall gd n,
  (forall k, In k (map fst gd) -> (k < n)%Z) ->
  let r := fold_left
             (fun (acc : list (Z * list string) * Z)
                  (e : string * list string) =>
                if Nat.ltb 1 (List.length (snd e)) then
                  (dict_set Z.eqb (snd acc) (snd e) (fst acc),
                   (snd acc + 1)%Z)
                else acc) vc (gd, n) in
  map snd (fst r) = map snd gd ++ map snd (filter is_group vc) /\
  map fst (fst r) =
    map fst gd ++
    map (fun i => (n + Z.of_nat i)%Z)
        (seq 0 (List.length (filter is_group vc))).
Proof.
  induction vc as [|e vc IH]; intros gd n Hlt; cbn [fold_left].
  - simpl. now rewrite !app_nil_r.
  - cbn [fst snd filter].
    change (Nat.ltb 1 (List.length (snd e))) with (is_group e).
    destruct (is_group e) eqn:E.
    + rewrite dict_set_fresh by exact Hlt.
      edestruct (IH (gd ++ [(n, snd e)]) (n + 1)%Z) as [H1 H2].
      { intros k Hin. rewrite map_app in Hin. apply in_app_or in Hin.
        destruct Hin as [Hin|[<-|[]]]; [apply Hlt in Hin; lia | simpl; lia]. }
      cbv zeta in H1, H2. rewrite H1, H2.
      rewrite !map_app, <- !app_assoc. cbn [map app fst snd List.length seq].
      split; [reflexivity|].
      f_equal. rewrite Z.add_0_r. f_equal.
      rewrite <- seq_shift, map_map.
      apply map_ext. intros i. lia.
    + apply IH. exact Hlt.
Qed.

Lemma group_duplicates_spec vc :
  map snd (fst (group_duplicates vc)) = map snd (filter is_group vc) /\
  map fst (fst (group_duplicates vc)) =
    map Z.of_nat (seq 0 (List.length (filter is_group vc))).
Proof.
  unfold group_duplicates.
  destruct (group_duplicates_gen vc [] 0%Z) as [H1 H2]; [intros k []|].
  cbv zeta in H1, H2. now rewrite H1, H2.
Qed.

(** The groups emitted for the triples [ts]: exactly the groups of the
    values that occur at least twice. *)
Lemma emitted_groups kv_full :
  let ts := triples kv_full in
  let groups := fst (group_duplicates (count_values kv_full)) in
  (forall i g, In (i, g) groups ->
     exists v, g = group_of ts v /\ 2 <= List.length (with_value ts v)) /\
  (forall v, 2 <= List.length (with_value ts v) ->
     exists i, In (i, group_of ts v) groups) /\
  map fst groups = map Z.of_nat (seq 0 (List.length groups)).
Proof.
  intros ts groups.
  destruct (group_duplicates_spec (count_values kv_full)) as [Hsnd Hfst].
  fold groups in Hsnd, Hfst.
  rewrite count_values_triples in Hsnd. fold ts in Hsnd.
  destruct (values_count_spec ts) as [Hnd Hget]. cbv zeta in Hnd, Hget.
  set (vc := fold_left add_triple ts []) in *.
  split; [|split].
  - intros i g Hin.
    apply (in_map snd) in Hin. cbn [snd] in Hin. rewrite Hsnd in Hin.
    apply in_map_iff in Hin. destruct Hin as ([v g'] & Heq & Hin).
    cbn [snd] in Heq. subst g'.
    apply filter_In in Hin. destruct Hin as [Hin Hbig].
    unfold is_group in Hbig. cbn [snd] in Hbig. apply Nat.ltb_lt in Hbig.
    apply (In_sget _ _ _ Hnd) in Hin. rewrite Hget in Hin.
    exists v.
    assert (Hg : g = group_of ts v).
    { destruct (group_of ts v); [discriminate | congruence]. }
    split; [exact Hg|].
    rewrite Hg in Hbig. unfold group_of in Hbig. rewrite length_map in Hbig. lia.
  - intros v Hbig.
    assert (Hlen : List.length (group_of ts v) = List.length (with_value ts v))
      by (unfold group_of; apply length_map).
    assert (Hin : In (v, group_of ts v) vc).
    { apply sget_In. rewrite Hget.
      destruct (group_of ts v); [simpl in Hlen; lia | reflexivity]. }
    assert (Hin' : In (group_of ts v) (map snd groups)).
    { rewrite Hsnd. apply in_map_iff. exists (v, group_of ts v).
      split; [reflexivity|]. apply filter_In. split; [exact Hin|].
      unfold is_group. cbn [snd]. apply Nat.ltb_lt. lia. }
    apply in_map_iff in Hin'. destruct Hin' as ([i g] & Heq & Hin').
    cbn [snd] in Heq. subst g. now exists i.
  - rewrite Hfst. do 2 f_equal.
    rewrite <- (length_map snd groups), Hsnd, length_map.
    now rewrite count_values_triples.
Qed.

Lemma extend_list_loop_spec c excluded roots : forall acc (s : state B),
  fold_for B roots acc (extend_list B c excluded) s =
  (Return (acc ++ all_listed B (st_world s) c excluded roots),
   ext s (st_world s) (map (fun r => CList c r (Some excluded)) roots) []).
Proof.
  induction roots as [|r rs IH]; intros acc s; simpl.
  - unfold ret. now rewrite ext_id, app_nil_r.
  - unfold bind at 1. unfold extend_list at 1, bind, secrets_tree_list, ret;
      simpl.
    rewrite IH; simpl. unfold ext, all_listed, listed; simpl.
    now rewrite <- !app_assoc.
Qed.

(** The triples behind the reported groups: for each value that occurs
    at least twice, in the order of [values_count], the triples with
    that value. *)
Lemma emitted_members kv_full :
  let ts := triples kv_full in
  let groups := fst (group_duplicates (count_values kv_full)) in
  exists members,
    map snd groups = map (map locator_of) members /\
    NoDup members /\
    (forall m, In m members <->
               exists v, m = with_value ts v /\ 2 <= List.length m).
Proof.
  intros ts groups.
  destruct (group_duplicates_spec (count_values kv_full)) as [Hsnd _].
  fold groups in Hsnd. rewrite count_values_triples in Hsnd. fold ts in Hsnd.
  destruct (values_count_spec ts) as [Hnd Hget]. cbv zeta in Hnd, Hget.
  set (vc := fold_left add_triple ts []) in *.
  assert (Hentry : forall e, In e vc ->
            snd e = group_of ts (fst e) /\ group_of ts (fst e) <> []).
  { intros [v g] Hin. cbn [fst snd].
    apply (In_sget _ _ _ Hnd) in Hin. rewrite Hget in Hin.
    destruct (group_of ts v); [discriminate|].
    split; [congruence | discriminate]. }
  assert (Hlen : forall v, List.length (group_of ts v)
                           = List.length (with_value ts v))
    by (intros v; unfold group_of; apply length_map).
  exists (map (fun e => with_value ts (fst e)) (filter is_group vc)).
  split; [|split].
  - rewrite Hsnd, map_map. apply map_ext_in.
    intros e He. apply filter_In in He. destruct He as [He _].
    apply (Hentry e He).
  - apply NoDup_map_NoDup_ForallPairs.
    + intros e e' He He' Heq.
      apply filter_In in He. destruct He as [He Hg].
      apply filter_In in He'. destruct He' as [He' _].
      destruct (Hentry e He) as [Hs Hne].
      destruct (Hentry e' He') as [Hs' _].
      assert (Hk : fst e = fst e').
      { destruct (with_value ts (fst e)) as [|t l] eqn:Ew.
        - exfalso. apply Hne. unfold group_of. now rewrite Ew.
        - assert (H1 : In t (with_value ts (fst e))) by (rewrite Ew; now left).
          assert (H2 : In t (with_value ts (fst e'))) by (rewrite <- Heq; now left).
          unfold with_value in H1, H2.
          apply filter_In in H1. apply filter_In in H2.
          destruct H1 as [_ H1]. destruct H2 as [_ H2].
          apply String.eqb_eq in H1. apply String.eqb_eq in H2. congruence. }
      destruct e as [v g], e' as [v' g']. cbn [fst snd] in *. subst v'.
      f_equal. congruence.
    + apply NoDup_filter. apply (NoDup_map_inv fst). exact Hnd.
  - intros m. split.
    + intros Hm. apply in_map_iff in Hm. destruct Hm as (e & <- & He).
      apply filter_In in He. destruct He as [He Hg].
      exists (fst e). split; [reflexivity|].
      unfold is_group in Hg. apply Nat.ltb_lt in Hg.
      destruct (Hentry e He) as [Hs _]. rewrite Hs, Hlen in Hg. lia.
    + intros (v & -> & Hbig).
      assert (Hin : In (v, group_of ts v) vc).
      { apply sget_In. rewrite Hget.
        destruct (group_of ts v) eqn:Eg; [|reflexivity].
        apply (f_equal (@List.length string)) in Eg. rewrite Hlen in Eg.
        simpl in Eg. lia. }
      apply in_map_iff. exists (v, group_of ts v). split; [reflexivity|].
      apply filter_In. split; [exact Hin|].
      unfold is_group. cbn [snd]. apply Nat.ltb_lt. rewrite Hlen. lia.
Qed.

(** C6. [kv_find_duplicates] gathers the triples under all the roots
    and reports groups of locators.  Behind the groups are lists of
    triples, one list per group and no list twice: a list of triples is
    behind a group exactly when it is the list of all the triples whose
    value equals, character for character, some value [v], and has two
    or more members; the group is that list with every triple rendered
    as [path:key].  A triple whose value occurs once is in no such
    list. *)
Theorem C6_duplicate_groups kw roots (s : state B) :
  keys_exists_in_dict (asdict kw) source_keys = [] ->
  find_duplicates kw = Some roots ->
  let ts := triples (combined_snapshot B (st_world s) (source_client kw)
                                       (excluded_of kw) roots) in
  exists cs os groups members,
    kv_find_duplicates B kw s =
    (Return tt,
     ext s (st_world s) cs (os ++ [Log INFO [LJsonGroups groups]])) /\
    map snd groups =
      map (map (fun t => t_path t +++ ":" +++ t_key t)) members /\
    NoDup members /\
    (forall m, In m members <->
       exists v,
         m = filter (fun t => String.eqb (t_value t) v) ts /\
         2 <= List.length m) /\
    (forall t,
       In t ts ->
       List.length (filter (fun t' => String.eqb (t_value t') (t_value t))
                           ts) = 1 ->
       forall m, In m members -> ~ In t m).
Proof.
  intros Hmiss Hfd ts.
  unfold kv_find_duplicates.
  unfold bind at 1. rewrite logger_spec. rewrite Hmiss, Hfd.
  cbn [List.length Nat.eqb negb].
  unfold bind at 1. rewrite connect_spec, ext_ext.
  fold (source_client kw).
  unfold bind at 1. rewrite extend_list_loop_spec.
  unfold bind at 1. rewrite read_loop_spec.
  rewrite logger_spec, !ext_ext. cbn [ext st_world app].
  fold (combined_snapshot B (st_world s) (source_client kw) (excluded_of kw) roots).
  set (kv_full := combined_snapshot B (st_world s) (source_client kw)
                                    (excluded_of kw) roots) in *.
  destruct (emitted_members kv_full) as (members & Hmap & Hnd & Hiff).
  fold ts in Hiff.
  unfold ext. repeat rewrite <- app_assoc. cbn [app].
  refine (ex_intro _ _ (ex_intro _ [_; _] (ex_intro _ _
            (ex_intro _ members _)))).
  split; [reflexivity|].
  split; [exact Hmap|]. split; [exact Hnd|]. split; [exact Hiff|].
  intros t Hin Hone m Hm Htm.
  apply Hiff in Hm. destruct Hm as (v & -> & Hbig).
  assert (Hv : t_value t = v).
  { apply filter_In in Htm. destruct Htm as [_ Htm].
    now apply String.eqb_eq in Htm. }
  subst v. unfold with_value in Hbig. lia.
Qed.

(** ** What leaves the entry point *)

Lemma missing_names_nil op kw :
  missing_names op kw = [] ->
  keys_exists_in_dict (asdict kw) (required_keys op) = [].
Proof.
  rewrite <- missing_names_spec. unfold dashed. apply map_eq_nil.
Qed.

(** C4, as the code has it.  When the selected operation lacks a
    required connection argument, the [ValueError] leaves [run].  The
    [AttributeError] raised by single-secret copy on an empty source
    document is caught by [run], logged as an error, and [run] returns
    [None]; no write is made.  With [VAULT_ADDR] in the environment, a
    delete reports every root that holds nothing with the error record
    "No secrets to delete at '<root>'" and [run] returns [None]. *)
Theorem C4_what_leaves_run kw op (s : state B) :
  selected kw = Some op ->
  (missing_names op kw <> [] ->
   exists s',
     run B environ kw s =
     (Raise (ValueError [LStr "Following arguments are missing ";
                         LList (missing_names op kw)]), s')) /\
  (op = CopySecret -> missing_names op kw = [] ->
   forall src dst,
     copy_secret kw = Some (src, dst) ->
     vc_read B (st_world s) (source_client kw) src = [] ->
     exists cs os,
       run B environ kw s =
       (Return PNone,
        ext s (st_world s) cs
            (os ++
             [Log ERROR
                [LStr ("'" +++ src +++
                       "' is not a valid secret. If you're trying to copy a path, use --copy-path instead")]])) /\
       filter is_write cs = []) /\
  (op = Delete -> missing_names op kw = [] ->
   forall roots a,
     delete kw = Some roots ->
     sget "VAULT_ADDR" environ = Some a ->
     exists cs os,
       run B environ kw s =
       (Return PNone,
        ext s (delete_subtree_world B (st_world s) (source_client kw) roots)
            cs os) /\
       filter is_error os =
         map (fun root =>
                Log ERROR [LStr ("No secrets to delete at '" +++ root
                                 +++ "'")])
             (reported_roots B (st_world s) (source_client kw) roots)).
Proof.
  intros Hsel. rewrite run_spec, Hsel.
  split; [|split].
  - intros Hne.
    unfold bind at 1. rewrite logger_spec.
    unfold bind at 1. unfold try_except_AttributeError.
    assert (Hk : keys_exists_in_dict (asdict kw) (required_keys op) <> []).
    { intros Hnil. apply Hne. rewrite <- missing_names_spec, Hnil. reflexivity. }
    rewrite (method_missing op kw _ Hk).
    unfold missing_error. rewrite missing_names_spec. eexists. reflexivity.
  - intros -> Hnil src dst Hcs Hread.
    apply missing_names_nil in Hnil. cbn [required_keys method] in *.
    unfold bind at 1. rewrite logger_spec.
    unfold bind at 1. unfold try_except_AttributeError.
    match goal with |- context [kv_copy_secret B kw ?s0] =>
      destruct (kv_copy_secret_spec kw src dst s0 Hnil Hcs) as (os & os' & Heq);
      rewrite Heq end.
    cbn [ext st_world]. rewrite Hread. cbn [List.length Nat.eqb].
    rewrite logger_spec. unfold ret. rewrite !ext_ext. cbn [ext st_world].
    unfold ext. cbn [st_world st_calls st_out].
    repeat rewrite <- app_assoc. cbn [app].
    refine (ex_intro _ _ (ex_intro _ (_ :: os) _)).
    split.
    + reflexivity.
    + reflexivity.
  - intros -> Hnil roots a Hdel Henv.
    apply missing_names_nil in Hnil. cbn [required_keys method] in *.
    unfold bind at 1. rewrite logger_spec.
    unfold bind at 1. unfold try_except_AttributeError.
    match goal with |- context [kv_delete B environ kw ?s0] =>
      destruct (kv_delete_spec kw roots a s0 Hnil Hdel Henv)
        as (cs & os & Heq & _ & Herr);
      rewrite Heq end.
    unfold ret. rewrite !ext_ext. cbn [ext st_world] in *.
    do 2 eexists. split; [reflexivity|].
    rewrite filter_app. cbn [filter is_error app]. exact Herr.
Qed.

End Facts.

(** ** The in-memory store *)














(** ** The copy operations and the target connection *)

(** C1, on the sample store.  With all four connection arguments
    supplied and the target distinct from the source, the one write of
    [kv_copy_secret] and the two writes of [kv_copy_path] go through a
    client built from [vault_addr] and [vault_token]: the copies land
    on the source instance and the target instance stays empty. *)
Theorem C1_copies_are_written_through_the_source_client :
  let kws := with_copy_secret demo_kw "app/db" "backup/db" in
  let kwp := with_copy_path demo_kw "app" "backup/app" in
  let after_secret := snd (kv_copy_secret MemStore kws (init demo_world)) in
  let after_path := snd (kv_copy_path MemStore kwp (init demo_world)) in
  source_client kws <> target_client kws /\
  filter is_write (st_calls after_secret) =
    [CWrite (source_client kws) "backup/db"
            [("user", "a"); ("pass", "b")] true] /\
  filter is_write (st_calls after_path) =
    [CWrite (source_client kwp) "backup/app/db"
            [("user", "a"); ("pass", "b")] true;
     CWrite (source_client kwp) "backup/app/api" [("key", "x")] true] /\
  instance (st_world after_secret) (target_client kws) = [] /\
  instance (st_world after_path) (target_client kwp) = [] /\
  sget "backup/db" (instance (st_world after_secret) (source_client kws)) =
    Some [("user", "a"); ("pass", "b")].
Proof.
  cbv zeta. split; [discriminate|]. repeat split; vm_compute; reflexivity.
Qed.

(** C4 does not hold as stated.  Single-secret copy of a secret whose
    document is empty raises inside [kv_copy_secret], and yet [run]
    returns [None]: nothing leaves the entry point.  And without
    [VAULT_ADDR] in the environment, a delete of a root that holds
    nothing is not just logged: a [KeyError] leaves [run]. *)
Lemma C4_counterexample :
  let kw := with_copy_secret demo_kw "hollow" "backup/hollow" in
  let kwd := with_delete demo_kw ["zzz"] in
  sget "hollow" (instance hollow_world (source_client kw)) = Some [] /\
  fst (kv_copy_secret MemStore kw (init hollow_world)) =
    Raise (AttributeError
             "'hollow' is not a valid secret. If you're trying to copy a path, use --copy-path instead") /\
  fst (run MemStore demo_environ kw (init hollow_world)) = Return PNone /\
  mem_list demo_world (source_client kwd) "zzz" None = [] /\
  fst (run MemStore [] kwd (init demo_world)) = Raise (KeyError "VAULT_ADDR").
Proof. cbv zeta. repeat split; vm_compute; reflexivity. Qed.

(** C2 does not hold as stated.  With the source root written [app/],
    the leaves [app/db] and [app/api] are in the snapshot, the suffix of
    [app/db] relative to the root is [db], and yet both leaves are
    written at [backup], not at [backup/db] and [backup/api]. *)
Lemma C2_counterexample :
  let kw := with_copy_path demo_kw "app/" "backup" in
  let after := snd (kv_copy_path MemStore kw (init demo_world)) in
  map fst (snapshot MemStore demo_world (source_client kw) "app/") =
    ["app/db"; "app/api"] /\
  strip_prefix (segments "app/") (segments "app/db") = Some ["db"] /\
  followed_by "backup" ["db"] = "backup/db" /\
  filter is_write (st_calls after) =
    [CWrite (source_client kw) "backup" [("user", "a"); ("pass", "b")] true;
     CWrite (source_client kw) "backup" [("key", "x")] true].
Proof. cbv zeta. repeat split; vm_compute; reflexivity. Qed.


(** ** The theorems at sample inputs *)

Lemma C2_witness :
  let kw := with_copy_path demo_kw "app" "backup/app" in
  let s := init demo_world in
  exists cs os w',
    kv_copy_path MemStore kw s = (Return tt, ext s w' cs os) /\
    Forall2
      (fun (leaf : string * doc) (c : call) =>
         snd leaf =
           vc_read_secret MemStore (st_world s) (source_client kw) (fst leaf) /\
         exists client p,
           c = CWrite client p (snd leaf) true /\
           forall sfx,
             split slash (fst leaf) = split slash "app" ++ sfx ->
             p = followed_by "backup/app" sfx)
      (snapshot MemStore (st_world s) (source_client kw) "app")
      (filter is_write cs).
Proof.
  cbv zeta.
  apply (C2_copy_path_suffix_preserving MemStore
           (with_copy_path demo_kw "app" "backup/app") "app" "backup/app"
           (init demo_world)).
  - reflexivity.
  - reflexivity.
  - vm_compute. discriminate.
  - vm_compute. discriminate.
Defined.


Lemma C9_witness :
  let kw := with_copy_secret demo_kw "app/db" "backup/db" in
  let s := init demo_world in
  exists r w' cs os,
    kv_copy_secret MemStore kw s = (r, ext s w' cs os) /\
    In (CRead (source_client kw) "app/db") cs /\
    r = Return tt /\
    exists client,
      filter is_write cs =
      [CWrite client "backup/db" [("user", "a"); ("pass", "b")] true].
Proof.
  cbv zeta.
  apply (C9_copy_secret_reads_then_writes_once MemStore
           (with_copy_secret demo_kw "app/db" "backup/db") "app/db" "backup/db"
           (init demo_world)).
  - reflexivity.
  - reflexivity.
Defined.

Lemma C8_witness :
  let kw := without_token (with_count demo_kw ["app"]) in
  exists os,
    method MemStore demo_environ Count kw (init demo_world) =
    (Raise (ValueError [LStr "Following arguments are missing ";
                        LList ["vault-token"]]),
     mkState (B:=MemStore) demo_world [] os).
Proof.
  cbv zeta.
  apply (C8_missing_arguments_abort_before_any_call MemStore demo_environ
           Count (without_token (with_count demo_kw ["app"]))
           (init demo_world)).
  vm_compute. discriminate.
Defined.


Lemma C6_witness :
  let kw := with_find_duplicates demo_kw ["app"; "solo"] in
  let s := init demo_world in
  let ts := triples (combined_snapshot MemStore demo_world (source_client kw)
                                       [] ["app"; "solo"]) in
  exists cs os groups members,
    kv_find_duplicates MemStore kw s =
    (Return tt,
     ext s demo_world cs (os ++ [Log INFO [LJsonGroups groups]])) /\
    map snd groups =
      map (map (fun t => t_path t +++ ":" +++ t_key t)) members /\
    NoDup members /\
    (forall m, In m members <->
       exists v,
         m = filter (fun t => String.eqb (t_value t) v) ts /\
         2 <= List.length m) /\
    (forall t,
       In t ts ->
       List.length (filter (fun t' => String.eqb (t_value t') (t_value t))
                           ts) = 1 ->
       forall m, In m members -> ~ In t m).
Proof.
  cbv zeta.
  apply (C6_duplicate_groups MemStore
           (with_find_duplicates demo_kw ["app"; "solo"]) ["app"; "solo"]
           (init demo_world)).
  - reflexivity.
  - reflexivity.
Defined.


Lemma C4_witness :
  let kw := with_copy_secret demo_kw "hollow" "backup/hollow" in
  let s := init hollow_world in
  exists cs os,
    run MemStore demo_environ kw s =
    (Return PNone,
     ext s hollow_world cs
         (os ++
          [Log ERROR
             [LStr "'hollow' is not a valid secret. If you're trying to copy a path, use --copy-path instead"]])) /\
    filter is_write cs = [].
Proof.
  cbv zeta.
  destruct (C4_what_leaves_run MemStore demo_environ
              (with_copy_secret demo_kw "hollow" "backup/hollow") CopySecret
              (init hollow_world) eq_refl) as (_ & H & _).
  apply (H eq_refl eq_refl "hollow" "backup/hollow" eq_refl eq_refl).
Defined.

(** With the copy-secret and count flags both supplied, [run] runs
    [kv_copy_secret] and nothing else. *)
Lemma C10_witness :
  let kw := with_copy_secret demo_kw "app/db" "backup/db" in
  let kw2 :=
    mkKwArgs (vault_addr kw) (vault_token kw) (vault_target_addr kw)
             (vault_target_token kw) false false None (copy_secret kw)
             None (Some ["app"]) None None None in
  run MemStore demo_environ kw2 (init demo_world) =
  bind MemStore (logger MemStore DEBUG [LStr "Module kv started"])
    (fun _ =>
       bind MemStore
            (try_except_AttributeError MemStore
               (kv_copy_secret MemStore kw2)
               (fun e => logger MemStore ERROR [LStr e]))
            (fun _ => ret MemStore PNone)) (init demo_world).
Proof.
  cbv zeta.
  exact (proj2 (proj2
    (C10_run_executes_the_first_selected_operation MemStore demo_environ
       (mkKwArgs (PStr "https://src") (PStr "s-token") (PStr "https://dst")
                 (PStr "d-token") false false None
                 (Some ("app/db", "backup/db")) None (Some ["app"])
                 None None None)
       (init demo_world)))).
Defined.

(** * Further properties of the methods *)

(** ** The calls a method makes *)

Section Calls.
Variable B : Backend.
Variable environ : sdict string.
Variable P : call -> Prop.
Variable keep : bool.

Lemma obeys_ret {A} (a : A) : obeys P keep (ret B a).
Proof.
  intros s. exists (st_world s), [], []. unfold ret; simpl.
  rewrite ext_id. auto.
Qed.

Lemma obeys_raise {A} e : obeys P keep (@raise B A e).
Proof.
  intros s. exists (st_world s), [], []. unfold raise; simpl.
  rewrite ext_id. auto.
Qed.

Lemma obeys_emit o : obeys P keep (emit B o).
Proof.
  intros s. exists (st_world s), [], [o]. rewrite emit_spec. simpl. auto.
Qed.

Lemma obeys_logger lvl m : obeys P keep (logger B lvl m).
Proof. apply obeys_emit. Qed.

Lemma obeys_getenv k : obeys P keep (getenv B environ k).
Proof.
  unfold getenv. destruct (sget k environ); [apply obeys_ret | apply obeys_raise].
Qed.

Lemma obeys_bind {A C} (m : M B A) (f : A -> M B C) :
  obeys P keep m -> (forall a, obeys P keep (f a)) ->
  obeys P keep (bind B m f).
Proof.
  intros Hm Hf s. unfold bind.
  destruct (Hm s) as (w & cs & os & Hs & HP & Hw).
  destruct (m s) as [[a|e] s1]; cbn [snd] in Hs; subst s1.
  - destruct (Hf a (ext s w cs os)) as (w' & cs' & os' & Hs' & HP' & Hw').
    exists w', (cs ++ cs'), (os ++ os').
    rewrite Hs', ext_ext. split; [reflexivity|]. split.
    + apply Forall_app. now split.
    + intros Hk. rewrite (Hw' Hk). cbn [ext st_world]. now apply Hw.
  - exists w, cs, os. cbn [snd]. auto.
Qed.

Lemma obeys_try (m : M B unit) (h : string -> M B unit) :
  obeys P keep m -> (forall e, obeys P keep (h e)) ->
  obeys P keep (try_except_AttributeError B m h).
Proof.
  intros Hm Hh s. unfold try_except_AttributeError.
  destruct (Hm s) as (w & cs & os & Hs & HP & Hw).
  destruct (m s) as [[a|e] s1]; cbn [snd] in Hs; subst s1.
  - exists w, cs, os. cbn [snd]. auto.
  - destruct e as [m0|e|k|m0];
      try (exists w, cs, os; cbn [snd]; now auto).
    destruct (Hh e (ext s w cs os)) as (w' & cs' & os' & Hs' & HP' & Hw').
    exists w', (cs ++ cs'), (os ++ os').
    rewrite Hs', ext_ext. split; [reflexivity|]. split.
    + apply Forall_app. now split.
    + intros Hk. rewrite (Hw' Hk). cbn [ext st_world]. now apply Hw.
Qed.

Lemma obeys_for_each {A} (l : list A) (body : A -> M B unit) :
  (forall x, obeys P keep (body x)) -> obeys P keep (for_each B l body).
Proof.
  intros Hb. induction l as [|x l IH]; simpl.
  - apply obeys_ret.
  - apply obeys_bind; [apply Hb | intros _; exact IH].
Qed.

Lemma obeys_fold_for {A S} (l : list A) (body : S -> A -> M B S) :
  (forall acc x, obeys P keep (body acc x)) ->
  forall acc, obeys P keep (fold_for B l acc body).
Proof.
  intros Hb. induction l as [|x l IH]; intros acc; simpl.
  - apply obeys_ret.
  - apply obeys_bind; [apply Hb | intros acc'; apply IH].
Qed.

Lemma obeys_secrets_tree_list c path excluded :
  P (CList c path excluded) ->
  obeys P keep (secrets_tree_list B c path excluded).
Proof.
  intros HP s. exists (st_world s), [CList c path excluded], [].
  unfold secrets_tree_list, ext; simpl. rewrite app_nil_r. auto.
Qed.

Lemma obeys_read_secret c path :
  P (CReadSecret c path) -> obeys P keep (read_secret B c path).
Proof.
  intros HP s. exists (st_world s), [CReadSecret c path], [].
  unfold read_secret, ext; simpl. rewrite app_nil_r. auto.
Qed.

Lemma obeys_read c path :
  P (CRead c path) -> obeys P keep (read B c path).
Proof.
  intros HP s. exists (st_world s), [CRead c path], [].
  unfold read, ext; simpl. rewrite app_nil_r. auto.
Qed.

Lemma obeys_write c path d h :
  P (CWrite c path d h) -> keep = false -> obeys P keep (write B c path d h).
Proof.
  intros HP Hk s.
  exists (vc_write B (st_world s) c path d h), [CWrite c path d h], [].
  unfold write, ext; simpl. rewrite app_nil_r.
  split; [reflexivity|]. split; [auto|]. congruence.
Qed.

Lemma obeys_vault_delete c path :
  P (CDelete c path) -> keep = false -> obeys P keep (vault_delete B c path).
Proof.
  intros HP Hk s.
  exists (vc_delete B (st_world s) c path), [CDelete c path], [].
  unfold vault_delete, ext; simpl. rewrite app_nil_r.
  split; [reflexivity|]. split; [auto|]. congruence.
Qed.

(** Connecting, then going on with the client built. *)
Lemma obeys_connect {C} kw a t (f : VaultClient -> M B C) :
  P (CInit a (dry_run kw) (skip_tls kw)) ->
  P (CAuthenticate (mkClient a (dry_run kw) (skip_tls kw) t)) ->
  obeys P keep (f (mkClient a (dry_run kw) (skip_tls kw) t)) ->
  obeys P keep (bind B (connect_to_vault B kw a t) f).
Proof.
  intros H1 H2 Hf s. unfold bind. rewrite connect_spec.
  destruct (Hf (ext s (st_world s)
                    [CInit a (dry_run kw) (skip_tls kw);
                     CAuthenticate (mkClient a (dry_run kw) (skip_tls kw) t)]
                    [Log DEBUG [LStr "Connecting to Vault instance '";
                                py_arg a; LStr "'"]]))
    as (w' & cs' & os' & Hs' & HP' & Hw').
  rewrite Hs', ext_ext. do 3 eexists. split; [reflexivity|]. split.
  - repeat constructor; assumption.
  - exact Hw'.
Qed.

End Calls.

Ltac obey :=
  cbv zeta;
  repeat first
    [ apply obeys_connect
    | apply obeys_bind; [|intros ?]
    | apply obeys_for_each; intros ?
    | apply obeys_fold_for; intros ? ?
    | apply obeys_try; [|intros ?]
    | apply obeys_ret | apply obeys_raise | apply obeys_logger
    | apply obeys_emit | apply obeys_getenv
    | apply obeys_secrets_tree_list | apply obeys_read_secret
    | apply obeys_read | apply obeys_write | apply obeys_vault_delete
    | match goal with
      | |- obeys _ _ (if ?b then _ else _) => destruct b
      | |- obeys _ _ (match ?x with _ => _ end) => destruct x
      end
    | progress unfold read_from_vault, read_into, push_to_vault, push_one,
        delete_from_vault, delete_one, kv_delete_one, kv_count_loop,
        kv_count_body, add_len, set_field, extend_list, tree_into ].

Ltac obey_method op :=
  destruct op;
  unfold method, kv_copy_path, kv_copy_secret, kv_delete, kv_count,
    kv_find_duplicates, kv_secrets_tree;
  obey.

(** Every write a method makes asks for the values to be hidden. *)
Lemma method_hides_values B environ op kw :
  obeys hides_values false (method B environ op kw).
Proof. obey_method op; simpl; auto. Qed.

(** Every call a method makes is on the source connection. *)
Lemma method_on_source B environ op kw :
  obeys (on_source kw) false (method B environ op kw).
Proof. obey_method op; simpl; auto. Qed.

(** A copy never deletes, a delete never writes, and the three other
    methods do neither and leave the store as it was. *)
Lemma method_allowed B environ op kw :
  obeys (allowed op) (is_read_only op) (method B environ op kw).
Proof. obey_method op; simpl; unfold reads_only; auto. Qed.

(** [run] keeps what the method it selects keeps. *)
Lemma run_obeys B environ P keep kw :
  (forall op, selected kw = Some op ->
              obeys P keep (method B environ op kw)) ->
  obeys P keep (run B environ kw).
Proof.
  intros Hop s. rewrite run_spec.
  destruct (selected kw) as [op|] eqn:Hsel.
  - refine (obeys_bind B P keep _ _ _ _ s); [apply obeys_logger|intros _].
    apply obeys_bind; [|intros _; apply obeys_ret].
    apply obeys_try; [now apply Hop | intros e; apply obeys_logger].
  - exists (st_world s), [],
      [Log ERROR [LStr "One argument should be specified"]; PrintHelp].
    unfold ext. cbn [snd]. rewrite app_nil_r. auto.
Qed.

Lemma obeys_weaken {B A} (P Q : call -> Prop) keep keep' (m : M B A) :
  (forall c, P c -> Q c) -> (keep' = true -> keep = true) ->
  obeys P keep m -> obeys Q keep' m.
Proof.
  intros HPQ Hk Hm s. destruct (Hm s) as (w & cs & os & Hs & HP & Hw).
  exists w, cs, os. split; [exact Hs|]. split.
  - eapply Forall_impl; [|exact HP]. exact HPQ.
  - intros H. apply Hw, Hk, H.
Qed.

Lemma selected_flag kw op : selected kw = Some op -> flag op kw = true.
Proof.
  unfold selected. intros H. apply find_some in H. apply H.
Qed.

(** X1. Whatever the arguments, every write made during [run] asks the
    client to hide the values ([hide_all=True]). *)
Theorem X1_every_write_hides_values B environ kw (s : state B) :
  exists w cs os,
    snd (run B environ kw s) = ext s w cs os /\
    forall client path d hide_all,
      In (CWrite client path d hide_all) cs -> hide_all = true.
Proof.
  destruct (run_obeys B environ hides_values false kw
              (fun op _ => method_hides_values B environ op kw) s)
    as (w & cs & os & Hs & HP & _).
  exists w, cs, os. split; [exact Hs|].
  intros client path d hide_all Hin.
  rewrite Forall_forall in HP. exact (HP _ Hin).
Qed.

(** X2. Whatever the operation and the arguments, every client [run]
    builds has the address [vault_addr] and is authenticated with
    [vault_token], and every listing, read, write and delete goes through
    such a client: the target address and token never reach a client. *)
Theorem X2_every_call_is_on_the_source_connection B environ kw
    (s : state B) :
  exists w cs os,
    snd (run B environ kw s) = ext s w cs os /\
    forall c, In c cs ->
      match c with
      | CInit addr dry skip =>
          addr = vault_addr kw /\ dry = dry_run kw /\ skip = skip_tls kw
      | CAuthenticate cl | CList cl _ _ | CReadSecret cl _ | CRead cl _
      | CWrite cl _ _ _ | CDelete cl _ =>
          c_addr cl = vault_addr kw /\ c_token cl = vault_token kw
      end.
Proof.
  destruct (run_obeys B environ (on_source kw) false kw
              (fun op _ => method_on_source B environ op kw) s)
    as (w & cs & os & Hs & HP & _).
  exists w, cs, os. split; [exact Hs|].
  intros c Hin. rewrite Forall_forall in HP. specialize (HP _ Hin).
  destruct c; simpl in HP; subst; simpl; auto.
Qed.

(** X3. When neither a copy flag nor the delete flag is supplied, [run]
    leaves the store as it was and makes no write and no delete call,
    whatever the other arguments. *)
Theorem X3_without_copy_or_delete_run_only_reads B environ kw
    (s : state B) :
  copy_path kw = None ->
  copy_secret kw = None ->
  truthy_list (delete kw) = false ->
  exists cs os,
    snd (run B environ kw s) = ext s (st_world s) cs os /\
    forall c, In c cs -> is_write c = false /\ is_delete c = false.
Proof.
  intros Hcp Hcs Hdel.
  destruct (run_obeys B environ reads_only true kw) with (s := s)
    as (w & cs & os & Hs & HP & Hw).
  { intros op Hsel. apply selected_flag in Hsel.
    destruct op; cbn [flag] in Hsel;
      try (rewrite Hcp in Hsel; discriminate);
      try (rewrite Hcs in Hsel; discriminate);
      try congruence.
    - exact (method_allowed B environ Count kw).
    - exact (method_allowed B environ FindDuplicates kw).
    - exact (method_allowed B environ SecretsTree kw). }
  rewrite (Hw eq_refl) in Hs. exists cs, os. split; [exact Hs|].
  intros c Hin. rewrite Forall_forall in HP. exact (HP _ Hin).
Qed.

(** X4. A run that does not select the delete operation makes no delete
    call, and a run that selects neither copy operation makes no write
    call: copying never deletes and deleting never writes. *)
Theorem X4_copy_never_deletes_delete_never_writes B environ kw
    (s : state B) :
  exists w cs os,
    snd (run B environ kw s) = ext s w cs os /\
    (selected kw <> Some Delete ->
     forall c, In c cs -> is_delete c = false) /\
    (selected kw <> Some CopyPath -> selected kw <> Some CopySecret ->
     forall c, In c cs -> is_write c = false).
Proof.
  destruct (run_obeys B environ
              (fun c =>
                 (selected kw <> Some Delete -> is_delete c = false) /\
                 (selected kw <> Some CopyPath ->
                  selected kw <> Some CopySecret -> is_write c = false))
              false kw) with (s := s)
    as (w & cs & os & Hs & HP & _).
  { intros op Hsel.
    apply (obeys_weaken (allowed op) _ (is_read_only op) false);
      [|discriminate|apply method_allowed].
    intros c Hc. rewrite Hsel.
    destruct op; cbn [allowed] in Hc; unfold reads_only in Hc;
      split; intros; try congruence; tauto. }
  exists w, cs, os. split; [exact Hs|].
  rewrite Forall_forall in HP.
  split.
  - intros Hd c Hin. now apply (HP c Hin).
  - intros H1 H2 c Hin. now apply (HP c Hin).
Qed.

(** ** Target paths *)

Lemma split_free x :
  contains slash x = false -> split slash x = [x].
Proof.
  induction x as [|c x IH]; simpl; [reflexivity|].
  intros H. apply orb_false_iff in H. destruct H as [Hc Hx].
  rewrite Hc, (IH Hx). reflexivity.
Qed.

Lemma split_append_free x r :
  contains slash x = false ->
  split slash (x +++ String slash r) = x :: split slash r.
Proof.
  induction x as [|c x IH]; simpl.
  - intros _. reflexivity.
  - intros H. apply orb_false_iff in H. destruct H as [Hc Hx].
    rewrite Hc, (IH Hx). reflexivity.
Qed.

(** No segment of a path holds a [/]. *)
Lemma split_all_free s : forall seg,
  In seg (split slash s) -> contains slash seg = false.
Proof.
  induction s as [|c s IH]; simpl; intros seg Hin.
  - destruct Hin as [<-|[]]. reflexivity.
  - destruct (Ascii.eqb c slash) eqn:E.
    + destruct Hin as [<-|Hin]; [reflexivity | now apply IH].
    + destruct (split slash s) as [|w ws].
      * destruct Hin as [<-|[]]. simpl. now rewrite E.
      * destruct Hin as [<-|Hin].
        -- simpl. rewrite E. apply IH. now left.
        -- apply IH. now right.
Qed.

(** Splitting the joined segments gives the segments back. *)
Lemma split_join l :
  l <> [] ->
  (forall seg, In seg l -> contains slash seg = false) ->
  split slash (list_to_string l "/") = l.
Proof.
  induction l as [|x l IH]; intros Hne Hfree; [contradiction|].
  destruct l as [|y l].
  - simpl. apply split_free. apply Hfree. now left.
  - rewrite list_to_string_cons.
    change ("/" +++ list_to_string (y :: l) "/")
      with (String slash (list_to_string (y :: l) "/")).
    rewrite split_append_free by (apply Hfree; now left).
    rewrite IH; [reflexivity | discriminate |].
    intros seg Hin. apply Hfree. now right.
Qed.

Lemma secret_target_path_under src dst leaf sfx :
  split slash leaf = split slash src ++ sfx ->
  secret_target_path src dst leaf = followed_by dst sfx.
Proof.
  intros H. apply remap_secret_target_path. unfold remap.
  apply strip_prefix_Some in H. now rewrite H.
Qed.

Lemma split_followed_by dst sfx :
  (forall seg, In seg sfx -> contains slash seg = false) ->
  split slash (followed_by dst sfx) = split slash dst ++ sfx.
Proof.
  intros Hfree. unfold followed_by. apply split_join.
  - intros H. apply app_eq_nil in H. destruct H as [H _].
    now apply split_not_nil in H.
  - intros seg Hin. apply in_app_or in Hin. destruct Hin as [Hin|Hin].
    + now apply (split_all_free dst).
    + now apply Hfree.
Qed.

Lemma secret_target_path_back src dst leaf sfx :
  split slash leaf = split slash src ++ sfx ->
  secret_target_path dst src (secret_target_path src dst leaf) = leaf.
Proof.
  intros H.
  assert (Hfree : forall seg, In seg sfx -> contains slash seg = false).
  { intros seg Hin. apply (split_all_free leaf). rewrite H.
    apply in_or_app. now right. }
  rewrite (secret_target_path_under src dst leaf sfx H).
  rewrite (secret_target_path_under dst src (followed_by dst sfx) sfx)
    by now apply split_followed_by.
  unfold followed_by. rewrite <- H. apply join_split.
Qed.

(** X5. Remapping is undone by remapping back: for a leaf under
    [src], the path computed for the copy from [src] to [dst], remapped
    from [dst] to [src], is the leaf. *)
Theorem X5_target_path_round_trip src dst leaf sfx :
  split slash leaf = split slash src ++ sfx ->
  secret_target_path dst src (secret_target_path src dst leaf) = leaf.
Proof. exact (secret_target_path_back src dst leaf sfx). Qed.


(** X7. The slice [secret.split('/')[n:]] is empty when the leaf has no
    more segments than the root: such a leaf is written at the target
    root itself, whatever its name. *)
Theorem X7_short_leaf_lands_on_the_target_root src dst leaf :
  List.length (split slash leaf) <= List.length (split slash src) ->
  secret_target_path src dst leaf = dst.
Proof.
  intros Hlen. unfold secret_target_path.
  rewrite skipn_all2 by exact Hlen. rewrite app_nil_r. apply join_split.
Qed.

(** ** Snapshots and reports *)

Lemma NoDup_same_length {A} (l l' : list A) :
  NoDup l -> NoDup l' -> (forall x, In x l <-> In x l') ->
  List.length l = List.length l'.
Proof.
  intros Hl Hl' Hiff.
  assert (H1 : List.length l <= List.length l').
  { apply NoDup_incl_length; [exact Hl | intros x Hx; now apply Hiff]. }
  assert (H2 : List.length l' <= List.length l).
  { apply NoDup_incl_length; [exact Hl' | intros x Hx; now apply Hiff]. }
  lia.
Qed.

Lemma snapshot_from_length B w c listing :
  List.length (snapshot_from B w c listing []) =
  List.length (nodup string_dec listing).
Proof.
  rewrite <- (length_map fst).
  apply NoDup_same_length.
  - apply snapshot_from_NoDup. constructor.
  - apply NoDup_nodup.
  - intros x. rewrite snapshot_from_keys, nodup_In. simpl. tauto.
Qed.

(** X8. [read_from_vault] lists once and reads every listed entry, in
    order; the dictionary it returns holds each listed leaf exactly once,
    however often the listing repeats it, bound to the document read
    there; the store is left as it was. *)
Theorem X8_read_from_vault_snapshot B root c (s : state B) :
  let listing := vc_secrets_tree_list B (st_world s) c root None in
  exists kv_full os,
    read_from_vault B root c s =
    (Return kv_full,
     ext s (st_world s)
         (CList c root None :: map (CReadSecret c) listing) os) /\
    NoDup (map fst kv_full) /\
    (forall p, In p (map fst kv_full) <-> In p listing) /\
    (forall p d, In (p, d) kv_full ->
                 d = vc_read_secret B (st_world s) c p) /\
    List.length kv_full = List.length (nodup string_dec listing).
Proof.
  intros listing. rewrite read_from_vault_spec. fold listing.
  do 2 eexists. split; [reflexivity|].
  split; [apply snapshot_NoDup|].
  split; [intros p; apply snapshot_keys|].
  split; [intros p d; apply snapshot_value|].
  apply snapshot_from_length.
Qed.

(** X9. A copy that goes through writes each distinct listed leaf
    exactly once: the number of writes is the number of distinct paths
    in the listing of the source root. *)
Theorem X9_copy_path_writes_each_leaf_once B kw src dst (s : state B) :
  keys_exists_in_dict (asdict kw) copy_keys = [] ->
  copy_path kw = Some (src, dst) ->
  let listing :=
    vc_secrets_tree_list B (st_world s) (source_client kw) src None in
  listing <> [] ->
  nodup string_dec listing <> [src] ->
  exists cs os w',
    kv_copy_path B kw s = (Return tt, ext s w' cs os) /\
    List.length (filter is_write cs) =
    List.length (nodup string_dec listing).
Proof.
  intros Hmiss Hcp listing Hne Hnot.
  destruct (kv_copy_path_spec B kw src dst s Hmiss Hcp)
    as (cs & os & os' & Hcs & Heq).
  set (snap := snapshot B (st_world s) (source_client kw) src) in *.
  assert (Hlen : List.length snap = List.length (nodup string_dec listing))
    by apply snapshot_from_length.
  destruct (Nat.eqb (List.length snap) 0) eqn:E0.
  { apply Nat.eqb_eq in E0. rewrite E0 in Hlen.
    destruct (nodup string_dec listing) eqn:En; [|discriminate].
    destruct listing as [|x l]; [contradiction|].
    assert (Hin : In x (nodup string_dec (x :: l)))
      by (apply nodup_In; now left).
    rewrite En in Hin. destruct Hin. }
  destruct (only_root snap src) eqn:E1.
  { exfalso. apply only_root_iff in E1.
    destruct (nodup string_dec listing) as [|y [|z l]] eqn:En.
    - simpl in Hlen. rewrite Hlen in E0. discriminate.
    - assert (Hy : In y (map fst snap)).
      { apply snapshot_keys. apply (nodup_In string_dec). fold listing.
        rewrite En. now left. }
      rewrite E1 in Hy. destruct Hy as [<-|[]]. now apply Hnot.
    - apply (f_equal (@List.length string)) in E1.
      rewrite length_map, Hlen in E1. discriminate. }
  do 3 eexists. split; [exact Heq|].
  rewrite filter_app, Hcs, filter_write_push. cbn [app].
  now rewrite length_map.
Qed.

Section FoldSet.
Context {V : Type} (f : string -> V).

Let fill (roots : list string) (d : sdict V) : sdict V :=
  fold_left (fun d root => sset root (f root) d) roots d.

Lemma fold_sset_lookup roots : forall d root,
  In root roots -> sget root (fill roots d) = Some (f root).
Proof.
  unfold fill.
  induction roots as [|r rs IH] using rev_ind; intros d root Hin;
    [destruct Hin|].
  rewrite fold_left_app. cbn [fold_left].
  destruct (string_dec root r) as [->|Hne].
  - apply sget_sset_same.
  - rewrite sget_sset_other by exact Hne.
    apply IH. apply in_app_or in Hin. destruct Hin as [Hin|[Heq|[]]];
      [exact Hin | congruence].
Qed.

Lemma fold_sset_keys roots : forall d k,
  In k (map fst (fill roots d)) <-> In k roots \/ In k (map fst d).
Proof.
  unfold fill.
  induction roots as [|r rs IH]; intros d k; simpl.
  - tauto.
  - rewrite IH, sset_keys_in. intuition congruence.
Qed.

Lemma fold_sset_NoDup roots : forall d,
  NoDup (map fst d) -> NoDup (map fst (fill roots d)).
Proof.
  unfold fill.
  induction roots as [|r rs IH]; intros d Hd; simpl; [exact Hd|].
  apply IH. now apply sset_keys_NoDup.
Qed.

Lemma fold_sset_length roots :
  List.length (fill roots []) = List.length (nodup string_dec roots).
Proof.
  rewrite <- (length_map fst). apply NoDup_same_length.
  - apply fold_sset_NoDup. constructor.
  - apply NoDup_nodup.
  - intros x. rewrite fold_sset_keys, nodup_In. simpl. tauto.
Qed.

End FoldSet.

Section Reports.
Variable B : Backend.
Variable environ : sdict string.

Lemma tree_loop_spec c excluded roots : forall acc (s : state B),
  fold_for B roots acc (tree_into B c excluded) s =
  (Return (tree_of B (st_world s) c excluded roots acc),
   ext s (st_world s) (map (fun r => CList c r (Some excluded)) roots) []).
Proof.
  induction roots as [|r rs IH]; intros acc s; simpl.
  - unfold ret. now rewrite ext_id.
  - unfold bind at 1. unfold tree_into at 1, bind, secrets_tree_list, ret;
      simpl.
    rewrite IH; simpl. unfold ext, listed; simpl.
    now rewrite <- !app_assoc.
Qed.

(** X10. [kv_secrets_tree] connects, lists each root once with the
    exclusion list and reads no document; it logs a report that binds
    every root given to the listing the client answered for it, one
    entry per distinct root; the store is left as it was. *)
Theorem X10_secrets_tree_lists_without_reading kw roots (s : state B) :
  keys_exists_in_dict (asdict kw) source_keys = [] ->
  secrets_tree kw = Some roots ->
  let c := source_client kw in
  let excluded := excluded_of kw in
  exists os report,
    kv_secrets_tree B kw s =
    (Return tt,
     ext s (st_world s)
         (CInit (vault_addr kw) (dry_run kw) (skip_tls kw)
          :: CAuthenticate c
          :: map (fun r => CList c r (Some excluded)) roots)
         (os ++ [Log INFO [LJsonTree report]])) /\
    (forall root, In root roots ->
       sget root report =
       Some (vc_secrets_tree_list B (st_world s) c root (Some excluded))) /\
    (forall k, In k (map fst report) -> In k roots) /\
    List.length report = List.length (nodup string_dec roots).
Proof.
  intros Hmiss Htree c excluded.
  unfold kv_secrets_tree.
  unfold bind at 1. rewrite logger_spec. rewrite Hmiss, Htree.
  cbn [List.length Nat.eqb negb].
  unfold bind at 1. rewrite connect_spec, ext_ext.
  fold (source_client kw). fold c. fold excluded.
  unfold bind at 1. rewrite tree_loop_spec.
  rewrite logger_spec, !ext_ext. cbn [ext st_world app].
  unfold ext. repeat rewrite <- app_assoc. cbn [app].
  rewrite !app_nil_r.
  refine (ex_intro _ [_; _] (ex_intro _ _ _)).
  split; [reflexivity|]. unfold tree_of.
  split; [|split].
  - intros root Hin.
    apply (fold_sset_lookup
             (fun root => listed B (st_world s) c excluded root)).
    exact Hin.
  - intros k Hin.
    apply (fold_sset_keys
             (fun root => listed B (st_world s) c excluded root)) in Hin.
    destruct Hin as [Hin|[]]. exact Hin.
  - apply (fold_sset_length
             (fun root => listed B (st_world s) c excluded root)).
Qed.

(** X11. When the delete operation is selected and [VAULT_ADDR] is not
    in the environment, the [KeyError] raised for the first root leaves
    [run]: the method has connected, and has listed and deleted
    nothing. *)
Theorem X11_delete_without_VAULT_ADDR_fails kw r rs (s : state B) :
  selected kw = Some Delete ->
  keys_exists_in_dict (asdict kw) source_keys = [] ->
  delete kw = Some (r :: rs) ->
  sget "VAULT_ADDR" environ = None ->
  exists os,
    run B environ kw s =
    (Raise (KeyError "VAULT_ADDR"),
     ext s (st_world s)
         [CInit (vault_addr kw) (dry_run kw) (skip_tls kw);
          CAuthenticate (source_client kw)] os).
Proof.
  intros Hsel Hmiss Hdel Henv. rewrite run_spec, Hsel.
  unfold bind at 1. rewrite logger_spec.
  unfold bind at 1. unfold try_except_AttributeError. cbn [method].
  match goal with |- context [kv_delete B environ kw ?s0] =>
    destruct (kv_delete_without_VAULT_ADDR B environ kw r rs s0
                Hmiss Hdel Henv) as (os & Heq);
    rewrite Heq end.
  rewrite ext_ext. cbn [ext st_world app]. eexists. reflexivity.
Qed.

(** X12. No [AttributeError] leaves [run]; when [run] returns, it
    returns [False] or [None], and [False] exactly when no operation
    flag is supplied. *)
Theorem X12_run_outcomes kw (s : state B) :
  (forall e, fst (run B environ kw s) <> Raise (AttributeError e)) /\
  (forall v, fst (run B environ kw s) = Return v ->
             v = PBool false \/ v = PNone) /\
  (fst (run B environ kw s) = Return (PBool false) <->
   selected kw = None).
Proof.
  remember (fst (run B environ kw s)) as o eqn:Ho.
  rewrite run_spec in Ho.
  destruct (selected kw) as [op|].
  - unfold bind at 1 in Ho. rewrite logger_spec in Ho.
    unfold bind at 1 in Ho. unfold try_except_AttributeError in Ho.
    destruct (method B environ op kw _) as [[[]|[m|e|k|m]] s1];
      unfold ret, logger, emit in Ho; cbn [fst] in Ho; subst o.
    all: split; [intros e0 H; discriminate H|].
    all: split; [intros v H; first [discriminate H | inversion H; auto]|].
    all: split; intros H; discriminate H.
  - cbn [fst] in Ho. subst o. split; [intros e H; discriminate H|].
    split; [intros v H; inversion H; auto|]. tauto.
Qed.

(** X13. The two refusals of copy-path do not leave [run] either: on an
    empty snapshot, and on a snapshot that is the source root alone,
    [run] logs the refusal as an error and returns [None]; the store is
    as before and no write is made. *)
Theorem X13_run_logs_the_refusals_of_copy_path kw src dst (s : state B) :
  keys_exists_in_dict (asdict kw) copy_keys = [] ->
  copy_path kw = Some (src, dst) ->
  let snap := snapshot B (st_world s) (source_client kw) src in
  snap = [] \/ map fst snap = [src] ->
  exists cs os,
    run B environ kw s =
    (Return PNone,
     ext s (st_world s) cs
         (os ++
          [Log ERROR
             [LStr match snap with
                   | [] => "No path to copy"
                   | _ => "--copy-path should not be used to copy individual secrets. Use --copy-secret instead"
                   end]])) /\
    filter is_write cs = [].
Proof.
  intros Hmiss Hcp snap Hcase.
  assert (Hsel : selected kw = Some CopyPath).
  { unfold selected, priority. cbn [find flag]. now rewrite Hcp. }
  rewrite run_spec, Hsel.
  unfold bind at 1. rewrite logger_spec.
  unfold bind at 1. unfold try_except_AttributeError. cbn [method].
  match goal with |- context [kv_copy_path B kw ?s0] =>
    destruct (kv_copy_path_spec B kw src dst s0 Hmiss Hcp)
      as (cs & os & os' & Hcs & Heq);
    rewrite Heq end.
  cbn [ext st_world]. fold snap.
  assert (Hrej : (if Nat.eqb (List.length snap) 0 then true
                  else only_root snap src) = true).
  { destruct Hcase as [->|Hone]; [reflexivity|].
    destruct (Nat.eqb (List.length snap) 0); [reflexivity|].
    now apply only_root_iff. }
  destruct (Nat.eqb (List.length snap) 0) eqn:E0.
  - destruct snap as [|e l]; [|discriminate].
    rewrite logger_spec. unfold ret. rewrite !ext_ext.
    cbn [ext st_world]. unfold ext. repeat rewrite <- app_assoc.
    cbn [app]. rewrite ?app_nil_r.
    refine (ex_intro _ cs (ex_intro _ (_ :: os) _)).
    split; [reflexivity | exact Hcs].
  - rewrite Hrej. destruct snap as [|e l]; [discriminate|].
    rewrite logger_spec. unfold ret. rewrite !ext_ext.
    cbn [ext st_world]. unfold ext. repeat rewrite <- app_assoc.
    cbn [app]. rewrite ?app_nil_r.
    refine (ex_intro _ cs (ex_intro _ (_ :: os) _)).
    split; [reflexivity | exact Hcs].
Qed.

End Reports.

Section Traces.
Variable B : Backend.

Lemma kv_count_body_trace c excluded v path (s : state B) :
  exists os,
    kv_count_body B c excluded v path s =
    (Return (mkCount
               (total_secrets v + secrets_count B (st_world s) c excluded path)
               (total_kv v + values_count B (st_world s) c excluded path)
               (sset path (secrets_count B (st_world s) c excluded path,
                           values_count B (st_world s) c excluded path)
                     (count_dict v))),
     ext s (st_world s)
         (CList c path (Some excluded)
          :: map (CRead c) (listed B (st_world s) c excluded path)) os).
Proof.
  unfold kv_count_body.
  unfold bind at 1. rewrite logger_spec.
  unfold bind at 1. unfold secrets_tree_list at 1.
  cbn [ext st_world st_calls st_out].
  unfold bind at 1. rewrite logger_spec.
  unfold bind at 1. unfold set_field at 1. rewrite sget_sset_same.
  unfold ret at 1.
  unfold bind at 1. rewrite add_len_loop_spec.
  unfold bind at 1. rewrite logger_spec.
  unfold bind at 1. unfold set_field at 1. rewrite sget_sset_same.
  unfold ret at 1.
  unfold ret. cbn [ext st_world st_calls st_out fst snd].
  rewrite !sset_sset.
  unfold secrets_count, values_count, listed, ext. cbn [Z.add].
  cbn [st_world st_calls st_out]. repeat rewrite <- app_assoc.
  cbn [app]. rewrite ?app_nil_r.
  refine (ex_intro _ [_; _; _] _). reflexivity.
Qed.

Lemma kv_count_fold_trace c excluded roots : forall v (s : state B),
  exists os,
    fold_for B roots v (kv_count_body B c excluded) s =
    (Return (mkCount
               (total_secrets v +
                sumZ (map (secrets_count B (st_world s) c excluded) roots))
               (total_kv v +
                sumZ (map (values_count B (st_world s) c excluded) roots))
               (count_dict_of B (st_world s) c excluded roots (count_dict v))),
     ext s (st_world s) (count_calls B (st_world s) c excluded roots) os).
Proof.
  induction roots as [|r rs IH]; intros v s.
  - exists []. simpl. unfold ret. rewrite ext_id, !Z.add_0_r.
    now destruct v.
  - cbn [fold_for]. unfold bind at 1.
    destruct (kv_count_body_trace c excluded v r s) as (os1 & H1).
    rewrite H1.
    match goal with |- context [fold_for B rs ?v0 _ ?s0] =>
      destruct (IH v0 s0) as (os2 & H2); rewrite H2 end.
    rewrite ext_ext. cbn [ext st_world total_secrets total_kv count_dict].
    exists (os1 ++ os2). f_equal. f_equal.
    cbn [map sumZ fold_right count_dict_of fold_left].
    f_equal; unfold sumZ; lia.
Qed.

(** X14. [kv_count] connects and then, root after root, lists the root
    with the exclusion list and reads every listed entry in full; it
    leaves the store as it was.  Its report has one entry per distinct
    root, so a root given twice is listed, read and added to the totals
    twice but reported once. *)
Theorem X14_count_trace_and_report kw roots (s : state B) :
  keys_exists_in_dict (asdict kw) source_keys = [] ->
  count kw = Some roots ->
  let w := st_world s in
  let c := source_client kw in
  let excluded := excluded_of kw in
  exists os report,
    kv_count B kw s =
    (Return tt,
     ext s w
         (CInit (vault_addr kw) (dry_run kw) (skip_tls kw)
          :: CAuthenticate c
          :: flat_map (fun r =>
                         CList c r (Some excluded)
                         :: map (CRead c)
                                (vc_secrets_tree_list B w c r (Some excluded)))
                      roots)
         (os ++
          [Log DEBUG [LStr "Total"];
           Log DEBUG [LStr (tab +++ "Secrets count: ");
                      LInt (sumZ (map (secrets_count B w c excluded) roots))];
           Log DEBUG [LStr (tab +++ "Values count: ");
                      LInt (sumZ (map (values_count B w c excluded) roots))];
           Log INFO [LJsonCount report]])) /\
    NoDup (map fst report) /\
    (forall k, In k (map fst report) <-> In k roots) /\
    List.length report = List.length (nodup string_dec roots).
Proof.
  intros Hmiss Hcount w c excluded.
  unfold kv_count.
  unfold bind at 1. rewrite logger_spec. rewrite Hmiss, Hcount.
  cbn [List.length Nat.eqb negb].
  unfold bind at 1. rewrite connect_spec, ext_ext.
  fold (source_client kw). fold c.
  unfold bind at 1. unfold kv_count_loop.
  match goal with |- context [fold_for B roots ?v0 _ ?s0] =>
    destruct (kv_count_fold_trace c (excluded_of kw) roots v0 s0)
      as (os & H); rewrite H end.
  cbn [ext st_world total_secrets total_kv count_dict Z.add].
  unfold bind at 1. rewrite logger_spec.
  unfold bind at 1. rewrite logger_spec.
  unfold bind at 1. rewrite logger_spec.
  rewrite logger_spec.
  unfold ext. cbn [st_world st_calls st_out].
  fold w. fold excluded.
  repeat rewrite <- app_assoc. cbn [app]. rewrite ?app_nil_r.
  refine (ex_intro _ (_ :: _ :: os) (ex_intro _ _ _)).
  split; [reflexivity|]. unfold count_dict_of.
  split; [|split].
  - apply (fold_sset_NoDup
             (fun root => (secrets_count B w c excluded root,
                           values_count B w c excluded root))).
    constructor.
  - intros k.
    rewrite (fold_sset_keys
               (fun root => (secrets_count B w c excluded root,
                             values_count B w c excluded root))).
    simpl. tauto.
  - apply (fold_sset_length
             (fun root => (secrets_count B w c excluded root,
                           values_count B w c excluded root))).
Qed.

(** X15. [kv_find_duplicates] first lists every root, then reads every
    listed entry, repeats included, and leaves the store as it was.  A
    leaf listed under several roots enters the groups once, and the
    groups of the report are numbered 0, 1, 2, ... in order. *)
Theorem X15_find_duplicates_trace_and_numbering kw roots (s : state B) :
  keys_exists_in_dict (asdict kw) source_keys = [] ->
  find_duplicates kw = Some roots ->
  let w := st_world s in
  let c := source_client kw in
  let excluded := excluded_of kw in
  let entries :=
    flat_map (fun r => vc_secrets_tree_list B w c r (Some excluded)) roots in
  exists os kv_full groups,
    kv_find_duplicates B kw s =
    (Return tt,
     ext s w
         (CInit (vault_addr kw) (dry_run kw) (skip_tls kw)
          :: CAuthenticate c
          :: map (fun r => CList c r (Some excluded)) roots
          ++ map (CReadSecret c) entries)
         (os ++ [Log INFO [LJsonGroups groups]])) /\
    groups = fst (group_duplicates (count_values kv_full)) /\
    NoDup (map fst kv_full) /\
    (forall p, In p (map fst kv_full) <-> In p entries) /\
    (forall p d, In (p, d) kv_full -> d = vc_read_secret B w c p) /\
    map fst groups = map Z.of_nat (seq 0 (List.length groups)).
Proof.
  intros Hmiss Hfd w c excluded entries.
  unfold kv_find_duplicates.
  unfold bind at 1. rewrite logger_spec. rewrite Hmiss, Hfd.
  cbn [List.length Nat.eqb negb].
  unfold bind at 1. rewrite connect_spec, ext_ext.
  fold (source_client kw). fold c. fold excluded.
  unfold bind at 1. rewrite extend_list_loop_spec.
  unfold bind at 1. rewrite read_loop_spec.
  rewrite logger_spec, !ext_ext. cbn [ext st_world app].
  fold w. unfold all_listed, listed. fold entries.
  unfold ext. repeat rewrite <- app_assoc. cbn [app]. rewrite ?app_nil_r.
  refine (ex_intro _ [_; _] (ex_intro _ (snapshot_from B w c entries [])
                                      (ex_intro _ _ _))).
  split; [reflexivity|]. split; [reflexivity|].
  split; [apply snapshot_from_NoDup; constructor|].
  split; [intros p; rewrite snapshot_from_keys; simpl; tauto|].
  split; [apply snapshot_from_value; intros ? ? []|].
  apply (emitted_groups (snapshot_from B w c entries [])).
Qed.

(** The paths [kv_delete] deletes were listed under one of its roots. *)
Lemma deleted_leaves_listed (under : string -> string -> Prop) c :
  (forall w r p, In p (vc_secrets_tree_list B w c r None) -> under r p) ->
  forall roots w p,
    In p (deleted_leaves B w c roots) ->
    exists r, In r roots /\ under r p.
Proof.
  intros Hsound.
  induction roots as [|r rs IH]; intros w p Hin; [destruct Hin|].
  cbn [deleted_leaves] in Hin. apply in_app_or in Hin.
  destruct Hin as [Hin|Hin].
  - exists r. split; [now left|].
    apply (Hsound w). unfold leaves_at in Hin. now apply snapshot_keys.
  - destruct (IH _ _ Hin) as (r' & Hr' & Hu). exists r'. split; [now right|].
    exact Hu.
Qed.

End Traces.

(** X16. If the store client only lists paths under the root it is
    asked for, [kv_delete] only deletes paths under one of the roots it
    is given, and it makes no write. *)
Theorem X16_delete_stays_under_the_roots B environ
    (under : string -> string -> Prop) kw roots a (s : state B) :
  (forall w r p,
     In p (vc_secrets_tree_list B w (source_client kw) r None) ->
     under r p) ->
  keys_exists_in_dict (asdict kw) source_keys = [] ->
  delete kw = Some roots ->
  sget "VAULT_ADDR" environ = Some a ->
  exists w' cs os,
    kv_delete B environ kw s = (Return tt, ext s w' cs os) /\
    forall c, In c cs ->
      match c with
      | CDelete _ p => exists r, In r roots /\ under r p
      | CWrite _ _ _ _ => False
      | _ => True
      end.
Proof.
  intros Hsound Hmiss Hdel Henv.
  destruct (kv_delete_spec B environ kw roots a s Hmiss Hdel Henv)
    as (cs & os & Heq & Hd & _).
  destruct (method_allowed B environ Delete kw s)
    as (w2 & cs2 & os2 & Hs2 & HP2 & _).
  cbn [method] in Hs2. rewrite Heq in Hs2. cbn [snd] in Hs2.
  assert (Hcs : cs2 = cs).
  { apply (f_equal (@st_calls B)) in Hs2. unfold ext in Hs2.
    cbn [st_calls] in Hs2. now apply app_inv_head in Hs2. }
  subst cs2.
  do 3 eexists. split; [exact Heq|].
  intros c Hin. destruct c; try exact I.
  - rewrite Forall_forall in HP2. specialize (HP2 _ Hin).
    cbn [allowed is_write] in HP2. discriminate.
  - assert (Hf : In (CDelete c path) (filter is_delete cs))
      by (apply filter_In; now split).
    rewrite Hd in Hf. apply in_map_iff in Hf.
    destruct Hf as (p & [= <- <-] & Hp).
    exact (deleted_leaves_listed B under (source_client kw) Hsound _ _ _ Hp).
Qed.

(** X17. A copy that goes through has read its whole snapshot before
    its first write: the trace is a run of calls none of which is a
    write, followed by the writes, one per snapshot leaf. *)
Theorem X17_copy_path_reads_before_it_writes B kw src dst (s : state B) :
  keys_exists_in_dict (asdict kw) copy_keys = [] ->
  copy_path kw = Some (src, dst) ->
  let snap := snapshot B (st_world s) (source_client kw) src in
  snap <> [] ->
  map fst snap <> [src] ->
  exists before writes os w',
    kv_copy_path B kw s = (Return tt, ext s w' (before ++ writes) os) /\
    (forall c, In c before -> is_write c = false) /\
    (forall c, In c writes -> is_write c = true) /\
    List.length writes = List.length snap.
Proof.
  intros Hmiss Hcp snap Hne Hnot.
  destruct (kv_copy_path_spec B kw src dst s Hmiss Hcp)
    as (cs & os & os' & Hcs & Heq).
  fold snap in Heq.
  destruct (Nat.eqb (List.length snap) 0) eqn:Elen.
  { destruct snap; [contradiction | discriminate]. }
  destruct (only_root snap src) eqn:Eonly.
  { apply only_root_iff in Eonly. contradiction. }
  exists cs, (map (push_call src dst (source_client kw)) snap), os'.
  eexists. split; [exact Heq|]. split; [|split].
  - intros c Hin. destruct (is_write c) eqn:E; [|reflexivity].
    assert (Hf : In c (filter is_write cs)) by (apply filter_In; now split).
    rewrite Hcs in Hf. destruct Hf.
  - intros c Hin. apply in_map_iff in Hin. destruct Hin as (it & <- & _).
    reflexivity.
  - apply length_map.
Qed.

(** ** The further properties at sample inputs *)

Lemma mem_list_under (w : mem_world) c r p :
  In p (mem_list w c r None) -> is_under r p = true.
Proof.
  unfold mem_list, list_leaves. intros H. apply filter_In in H.
  destruct H as [_ H]. apply andb_true_iff in H. apply H.
Qed.

Lemma X3_witness :
  let kw := with_count demo_kw ["app"] in
  let s := init demo_world in
  exists cs os,
    snd (run MemStore demo_environ kw s) = ext s demo_world cs os /\
    forall c, In c cs -> is_write c = false /\ is_delete c = false.
Proof.
  cbv zeta.
  apply (X3_without_copy_or_delete_run_only_reads MemStore demo_environ
           (with_count demo_kw ["app"]) (init demo_world));
    reflexivity.
Defined.

Lemma X4_witness :
  let kw := with_copy_path demo_kw "app" "backup/app" in
  exists w cs os,
    snd (run MemStore demo_environ kw (init demo_world)) =
      ext (init demo_world) w cs os /\
    forall c, In c cs -> is_delete c = false.
Proof.
  cbv zeta.
  destruct (X4_copy_never_deletes_delete_never_writes MemStore demo_environ
              (with_copy_path demo_kw "app" "backup/app") (init demo_world))
    as (w & cs & os & Hs & Hd & _).
  exists w, cs, os. split; [exact Hs|].
  apply Hd. vm_compute. discriminate.
Defined.

Lemma X5_witness :
  secret_target_path "backup/app" "app"
    (secret_target_path "app" "backup/app" "app/team/db") = "app/team/db".
Proof.
  apply (X5_target_path_round_trip "app" "backup/app" "app/team/db"
           ["team"; "db"]).
  reflexivity.
Defined.


Lemma X7_witness : secret_target_path "app/" "backup/" "app/db" = "backup/".
Proof.
  apply (X7_short_leaf_lands_on_the_target_root "app/" "backup/" "app/db").
  vm_compute. lia.
Defined.

Lemma X9_witness :
  let kw := with_copy_path demo_kw "app" "backup/app" in
  let s := init demo_world in
  exists cs os w',
    kv_copy_path MemStore kw s = (Return tt, ext s w' cs os) /\
    List.length (filter is_write cs) = 2.
Proof.
  cbv zeta.
  apply (X9_copy_path_writes_each_leaf_once MemStore
           (with_copy_path demo_kw "app" "backup/app") "app" "backup/app"
           (init demo_world)).
  - reflexivity.
  - reflexivity.
  - vm_compute. discriminate.
  - vm_compute. discriminate.
Defined.

Lemma X10_witness :
  let kw := with_secrets_tree demo_kw ["app"; "app"] in
  let s := init demo_world in
  let c := source_client kw in
  exists os report,
    kv_secrets_tree MemStore kw s =
    (Return tt,
     ext s demo_world
         [CInit (PStr "https://src") false false; CAuthenticate c;
          CList c "app" (Some []); CList c "app" (Some [])]
         (os ++ [Log INFO [LJsonTree report]])) /\
    (forall root, In root ["app"; "app"] ->
       sget root report = Some (mem_list demo_world c root (Some []))) /\
    (forall k, In k (map fst report) -> In k ["app"; "app"]) /\
    List.length report = 1.
Proof.
  cbv zeta.
  apply (X10_secrets_tree_lists_without_reading MemStore
           (with_secrets_tree demo_kw ["app"; "app"]) ["app"; "app"]
           (init demo_world)).
  - reflexivity.
  - reflexivity.
Defined.

Lemma X11_witness :
  let kw := with_delete demo_kw ["app"] in
  exists os,
    run MemStore [] kw (init demo_world) =
    (Raise (KeyError "VAULT_ADDR"),
     ext (init demo_world) demo_world
         [CInit (PStr "https://src") false false;
          CAuthenticate (source_client kw)] os).
Proof.
  cbv zeta.
  apply (X11_delete_without_VAULT_ADDR_fails MemStore []
           (with_delete demo_kw ["app"]) "app" [] (init demo_world));
    reflexivity.
Defined.

Lemma X13_witness :
  let kw := with_copy_path demo_kw "zzz" "backup/zzz" in
  let s := init demo_world in
  exists cs os,
    run MemStore demo_environ kw s =
    (Return PNone,
     ext s demo_world cs (os ++ [Log ERROR [LStr "No path to copy"]])) /\
    filter is_write cs = [].
Proof.
  cbv zeta.
  apply (X13_run_logs_the_refusals_of_copy_path MemStore demo_environ
           (with_copy_path demo_kw "zzz" "backup/zzz") "zzz" "backup/zzz"
           (init demo_world)).
  - reflexivity.
  - reflexivity.
  - left. reflexivity.
Defined.

Lemma X14_witness :
  let kw := with_count demo_kw ["app"; "app"] in
  let s := init demo_world in
  let c := source_client kw in
  exists os report,
    kv_count MemStore kw s =
    (Return tt,
     ext s demo_world
         [CInit (PStr "https://src") false false; CAuthenticate c;
          CList c "app" (Some []); CRead c "app/db"; CRead c "app/api";
          CList c "app" (Some []); CRead c "app/db"; CRead c "app/api"]
         (os ++
          [Log DEBUG [LStr "Total"];
           Log DEBUG [LStr (tab +++ "Secrets count: "); LInt 4];
           Log DEBUG [LStr (tab +++ "Values count: "); LInt 6];
           Log INFO [LJsonCount report]])) /\
    NoDup (map fst report) /\
    (forall k, In k (map fst report) <-> In k ["app"; "app"]) /\
    List.length report = 1.
Proof.
  cbv zeta.
  apply (X14_count_trace_and_report MemStore
           (with_count demo_kw ["app"; "app"]) ["app"; "app"]
           (init demo_world)).
  - reflexivity.
  - reflexivity.
Defined.

Lemma X15_witness :
  let kw := with_find_duplicates demo_kw ["app"; "app/db"] in
  let s := init demo_world in
  let c := source_client kw in
  exists os kv_full groups,
    kv_find_duplicates MemStore kw s =
    (Return tt,
     ext s demo_world
         [CInit (PStr "https://src") false false; CAuthenticate c;
          CList c "app" (Some []); CList c "app/db" (Some []);
          CReadSecret c "app/db"; CReadSecret c "app/api";
          CReadSecret c "app/db"]
         (os ++ [Log INFO [LJsonGroups groups]])) /\
    groups = fst (group_duplicates (count_values kv_full)) /\
    NoDup (map fst kv_full) /\
    (forall p, In p (map fst kv_full) <->
               In p ["app/db"; "app/api"; "app/db"]) /\
    (forall p d, In (p, d) kv_full -> d = mem_read demo_world c p) /\
    map fst groups = map Z.of_nat (seq 0 (List.length groups)).
Proof.
  cbv zeta.
  apply (X15_find_duplicates_trace_and_numbering MemStore
           (with_find_duplicates demo_kw ["app"; "app/db"])
           ["app"; "app/db"] (init demo_world)).
  - reflexivity.
  - reflexivity.
Defined.

Lemma X16_witness :
  let kw := with_delete demo_kw ["app"] in
  let s := init demo_world in
  exists w' cs os,
    kv_delete MemStore demo_environ kw s = (Return tt, ext s w' cs os) /\
    forall c, In c cs ->
      match c with
      | CDelete _ p => exists r, In r ["app"] /\ is_under r p = true
      | CWrite _ _ _ _ => False
      | _ => True
      end.
Proof.
  cbv zeta.
  apply (X16_delete_stays_under_the_roots MemStore demo_environ
           (fun r p => is_under r p = true)
           (with_delete demo_kw ["app"]) ["app"] "https://src"
           (init demo_world)).
  - intros w r p. apply mem_list_under.
  - reflexivity.
  - reflexivity.
  - reflexivity.
Defined.

Lemma X17_witness :
  let kw := with_copy_path demo_kw "app" "backup/app" in
  let s := init demo_world in
  exists before writes os w',
    kv_copy_path MemStore kw s =
      (Return tt, ext s w' (before ++ writes) os) /\
    (forall c, In c before -> is_write c = false) /\
    (forall c, In c writes -> is_write c = true) /\
    List.length writes = 2.
Proof.
  cbv zeta.
  apply (X17_copy_path_reads_before_it_writes MemStore
           (with_copy_path demo_kw "app" "backup/app") "app" "backup/app"
           (init demo_world)).
  - reflexivity.
  - reflexivity.
  - vm_compute. discriminate.
  - vm_compute. discriminate.
Defined.
